(** * warelay: the multi-provider message relay

    A shallow embedding of the relay core of [src/index.ts] (the Twilio
    poll transport and its delivery-status wait) and of
    [src/provider-web.ts] (the WhatsApp-Web session transport, its login,
    inbox, auto-reply handler, media guard and provider selection),
    followed by the properties the specification states about them.

    Conventions of the embedding:
    - a JavaScript [string] is a Rocq [string]; a value that may be
      [undefined] or [null] is an [option]; truthiness of a string is
      non-emptiness, of a number is being non-zero;
    - a [Date] is its [getTime()] value, an integer number of
      milliseconds ([Z]);
    - a [Set<string>] is a [gset string];
    - effects (console output, calls on the socket, file-system calls,
      [process.exit]) are recorded in an event trace returned next to the
      result; results of external calls are supplied by the caller of the
      model as oracles. *)

From Stdlib Require Import ZArith NArith List String Ascii Lia DecimalString.
From stdpp Require Import gmap strings list.

Local Open Scope string_scope.
Local Open Scope list_scope.
Local Open Scope Z_scope.

(** ** JavaScript helpers *)

Module Js.

(** [!!s] for an optional string: defined and non-empty. *)
Definition truthy (s : option string) : bool :=
  match s with
  | Some EmptyString => false
  | Some _ => true
  | None => false
  end.

(** [!!n] for an optional (integer) number: defined and non-zero. *)
Definition truthyNum (n : option Z) : bool :=
  match n with
  | Some n => negb (n =? 0)
  | None => false
  end.

(** An object-valued optional property used as a condition. *)
Definition present {A} (a : option A) : bool :=
  match a with
  | Some _ => true
  | None => false
  end.

(** [a ?? b] *)
Definition nullish {A} (a : option A) (b : option A) : option A :=
  match a with
  | Some _ => a
  | None => b
  end.

(** [a ?? d] with a default that is always defined. *)
Definition orElse {A} (a : option A) (d : A) : A :=
  match a with
  | Some x => x
  | None => d
  end.

(** [String(n)] for an integer. *)
Definition showZ (n : Z) : string := NilZero.string_of_int (Z.to_int n).

(** [s.startsWith(p)] *)
Definition startsWith (s p : string) : bool := String.prefix p s.

(** [s.endsWith(p)] *)
Definition endsWith (s p : string) : bool :=
  let ls := String.length s in
  let lp := String.length p in
  (lp <=? ls)%nat && String.eqb (String.substring (ls - lp) lp s) p.

(** [s.slice(n)] *)
Definition drop (n : nat) (s : string) : string :=
  String.substring n (String.length s - n) s.

Definition lowerChar (c : ascii) : ascii :=
  let n := nat_of_ascii c in
  if ((65 <=? n) && (n <=? 90))%nat then ascii_of_nat (n + 32) else c.

Fixpoint lower (s : string) : string :=
  match s with
  | EmptyString => EmptyString
  | String c r => String (lowerChar c) (lower r)
  end.

(** White space removed by [String.prototype.trim], for the code units
    below 256: TAB, LF, VT, FF, CR, SP and NBSP. *)
Definition isSpace (c : ascii) : bool :=
  let n := nat_of_ascii c in
  ((9 <=? n) && (n <=? 13) || (n =? 32) || (n =? 160))%nat.

Fixpoint trimStart (s : string) : string :=
  match s with
  | EmptyString => EmptyString
  | String c r => if isSpace c then trimStart r else s
  end.

(** Drops trailing white space: a character is kept when it is not a
    space or when something survives after it. *)
Fixpoint trimEnd (s : string) : string :=
  match s with
  | EmptyString => EmptyString
  | String c r =>
      match trimEnd r with
      | EmptyString => if isSpace c then EmptyString else String c EmptyString
      | r' => String c r'
      end
  end.

(** [s.trim()] *)
Definition trim (s : string) : string := trimEnd (trimStart s).

End Js.

(** ** Poll transport: [monitor] of [src/index.ts] *)

Module Poll.

(** The fields of Twilio's [MessageInstance] that [monitor] reads. *)
Record MessageInstance := mkMessage {
  sid : string;
  direction : string;
  dateCreated : option Z;
  msgFrom : option string;
  msgTo : string;
  msgBody : option string
}.

(** State of the loop: the [since] watermark and the [seen] set. *)
Record State := mkState {
  since : Z;
  seen : gset string
}.

Inductive Event :=
| Emitted (m : MessageInstance)   (* the [console.log] line of an inbound message *)
| PollError.                      (* [console.error('Error while polling messages', err)] *)

(** [updateSince]: no date, no change; a later date replaces [since]. *)
Definition updateSince (s : Z) (date : option Z) : Z :=
  match date with
  | None => s
  | Some d => if d >? s then d else s
  end.

(** The sort key of the comparator: [dateCreated?.getTime() ?? 0]. *)
Definition sortKey (m : MessageInstance) : Z := Js.orElse (dateCreated m) 0.

(** [Array.prototype.sort] with comparator [da - db]: a stable sort,
    ascending by key (entries with equal keys keep their order). *)
Fixpoint insertSorted (m : MessageInstance) (l : list MessageInstance)
  : list MessageInstance :=
  match l with
  | [] => [m]
  | x :: r => if sortKey m <=? sortKey x then m :: l else x :: insertSorted m r
  end.

Definition sortByCreated (l : list MessageInstance) : list MessageInstance :=
  foldr insertSorted [] l.

(** The body of the [forEach]. *)
Definition handleEntry (acc : State * list Event) (m : MessageInstance)
  : State * list Event :=
  let '(st, log) := acc in
  if decide (sid m ∈ seen st) then acc
  else (mkState (updateSince (since st) (dateCreated m)) ({[sid m]} ∪ seen st),
        log ++ [Emitted m]).

Definition isInbound (m : MessageInstance) : bool :=
  String.eqb (direction m) "inbound".

(** One iteration of the [while] loop. [fetched] is what
    [client.messages.list] gave ([limit: 50] bounds its length, which
    nothing below depends on): [None] when it threw. *)
Definition pollOnce (acc : State * list Event)
    (fetched : option (list MessageInstance)) : State * list Event :=
  match fetched with
  | None => (acc.1, acc.2 ++ [PollError])
  | Some messages =>
      fold_left handleEntry (sortByCreated (List.filter isInbound messages)) acc
  end.

(** The loop, run for as many iterations as there are fetch results
    (the stop flag is read at the top of each iteration only). *)
Definition monitorFrom (acc : State * list Event)
    (fetches : list (option (list MessageInstance))) : State * list Event :=
  fold_left pollOnce fetches acc.

(** [monitor]: [since0] is [Date.now() - lookbackMinutes * 60_000]. *)
Definition monitor (since0 : Z)
    (fetches : list (option (list MessageInstance))) : State * list Event :=
  monitorFrom (mkState since0 ∅, []) fetches.

(** The accepted entries: those the loop emitted. *)
Definition accepted (log : list Event) : list MessageInstance :=
  omap (fun e => match e with Emitted m => Some m | PollError => None end) log.

(** Creation timestamps of a list of entries (entries without a date
    have none). *)
Definition timestamps (l : list MessageInstance) : list Z :=
  omap dateCreated l.

(** The largest of a list of timestamps, [None] for the empty list. *)
Definition maxTimestamp (l : list Z) : option Z :=
  match l with
  | [] => None
  | x :: r => Some (foldr Z.max x r)
  end.

(** What holds of the loop state and trace at every point: every
    accepted sid is in [seen], no sid was accepted twice, and [since]
    is the largest of the start value and the accepted timestamps. *)
Definition pollInv (since0 : Z) (acc : State * list Event) : Prop :=
  (∀ m, m ∈ accepted acc.2 → sid m ∈ seen acc.1)
  ∧ NoDup (sid <$> accepted acc.2)
  ∧ since acc.1 = foldr Z.max since0 (timestamps (accepted acc.2)).

(** [seen] is exactly the set of emitted sids. *)
Definition seenIsEmitted (acc : State * list Event) : Prop :=
  ∀ s, s ∈ seen acc.1 ↔ s ∈ sid <$> accepted acc.2.

End Poll.

(** ** Outbound dispatcher: [waitForFinalStatus] and the [send] action
       of [src/index.ts] *)

Module Dispatch.

(** What [client.messages(sid).fetch()] resolves to, as far as it is read. *)
Record Fetched := mkFetched {
  status : option string;
  errorCode : option Z;
  errorMessage : option string
}.

(** One round of the environment: how long the fetch took, what it
    returned, and by how much the timer overslept (all in ms). *)
Record Round := mkRound {
  latency : N;
  fetched : Fetched;
  overslept : N
}.

Definition successTerminalStatuses : gset string := {[ "delivered"; "read" ]}.
Definition failureTerminalStatuses : gset string :=
  {[ "failed"; "undelivered"; "canceled" ]}.

Inductive Event :=
| FetchStatus (status : string)   (* a fetch, and the status it showed *)
| Sleep (ms : Z)
| ConsoleLog (line : string)
| ConsoleError (line : string).

(** How the process leaves the function: a normal return, or
    [process.exit(code)]. *)
Inductive Completion :=
| Returned
| Exited (code : Z).

Record Outcome := mkOutcome {
  completion : Completion;
  events : list Event;
  clock : Z                       (* [Date.now()] when the function is left *)
}.

Definition deliveredLine (status : string) : string :=
  "✅ Delivered (status: " +:+ status +:+ ")".

Definition failedLine (status : string) (m : Fetched) : string :=
  "❌ Delivery failed (status: " +:+ status
    +:+ (if Js.truthyNum (errorCode m)
         then ", code " +:+ Js.showZ (Js.orElse (errorCode m) 0) else "")
    +:+ ")"
    +:+ (if Js.truthy (errorMessage m)
         then ": " +:+ Js.orElse (errorMessage m) "" else "").

Definition timedOutLine : string :=
  "ℹ️  Timed out waiting for final status; message may still be in flight.".

Definition cons_event (e : list Event) (o : Outcome) : Outcome :=
  mkOutcome (completion o) (e ++ events o) (clock o).

(** The [while (Date.now() < deadline)] loop; [i] counts the rounds
    done, [now] is the clock at the loop test. [None]: out of fuel. *)
Fixpoint waitLoop (fuel : nat) (deadline pollSeconds : Z)
    (rounds : nat -> Round) (i : nat) (now : Z) : option Outcome :=
  if now <? deadline then
    match fuel with
    | O => None
    | S fuel' =>
        let r := rounds i in
        let m := fetched r in
        let now1 := now + Z.of_N (latency r) in
        let st := Js.orElse (status m) "unknown" in
        if bool_decide (st ∈ successTerminalStatuses) then
          Some (mkOutcome Returned
                  [FetchStatus st; ConsoleLog (deliveredLine st)] now1)
        else if bool_decide (st ∈ failureTerminalStatuses) then
          Some (mkOutcome (Exited 1)
                  [FetchStatus st; ConsoleError (failedLine st m)] now1)
        else
          cons_event [FetchStatus st; Sleep (pollSeconds * 1000)] <$>
            waitLoop fuel' deadline pollSeconds rounds (S i)
              (now1 + pollSeconds * 1000 + Z.of_N (overslept r))
    end
  else Some (mkOutcome Returned [ConsoleLog timedOutLine] now).

(** [waitForFinalStatus]: [now] is [Date.now()] on entry. The fuel is
    one round per millisecond of the timeout, which a positive poll
    interval never uses up. *)
Definition waitForFinalStatus (now timeoutSeconds pollSeconds : Z)
    (rounds : nat -> Round) : option Outcome :=
  let deadline := now + timeoutSeconds * 1000 in
  waitLoop (Z.to_nat (timeoutSeconds * 1000)) deadline pollSeconds rounds 0 now.

(** The statuses the loop saw, in order. *)
Definition observed (log : list Event) : list string :=
  omap (fun e => match e with FetchStatus s => Some s | _ => None end) log.

Definition isTerminal (s : string) : bool :=
  bool_decide (s ∈ successTerminalStatuses) || bool_decide (s ∈ failureTerminalStatuses).

(** The first terminal status of a sequence of statuses. *)
Definition firstTerminal (l : list string) : option string :=
  List.find isTerminal l.

(** The status that round [k] shows: [m.status ?? 'unknown']. *)
Definition statusAt (rounds : nat -> Round) (k : nat) : string :=
  Js.orElse (status (fetched (rounds k))) "unknown".

(** The three ways the wait can report. *)
Definition reportsSuccess (o : Outcome) : Prop :=
  completion o = Returned
  ∧ ∃ s, last (events o) = Some (ConsoleLog (deliveredLine s)).

Definition reportsFailure (o : Outcome) : Prop :=
  completion o = Exited 1
  ∧ ∃ s m, last (events o) = Some (ConsoleError (failedLine s m)).

Definition reportsTimeout (o : Outcome) : Prop :=
  completion o = Returned
  ∧ last (events o) = Some (ConsoleLog timedOutLine).

(** What an outcome of the loop started at round [i] satisfies: the
    statuses seen are those of rounds [i], [i+1], ... in order; when
    one of them is terminal it is the last one seen and the report
    goes by its set, with the line built from that round's message;
    when none is, the report is the timeout line, after the deadline. *)
Definition waitSpec (deadline : Z) (rounds : nat -> Round) (i : nat)
    (o : Outcome) : Prop :=
  let obs := observed (events o) in
  obs = statusAt rounds <$> seq i (length obs)
  ∧ match firstTerminal obs with
    | Some s =>
        last obs = Some s
        ∧ ((s ∈ successTerminalStatuses
            ∧ completion o = Returned
            ∧ last (events o) = Some (ConsoleLog (deliveredLine s)))
           ∨ (s ∈ failureTerminalStatuses
              ∧ completion o = Exited 1
              ∧ last (events o)
                = Some (ConsoleError
                          (failedLine s (fetched (rounds (i + length obs - 1)%nat))))))
    | None =>
        completion o = Returned
        ∧ last (events o) = Some (ConsoleLog timedOutLine)
        ∧ deadline <= clock o
    end.

(** The [send] action: [wait] and [poll] are the results of
    [Number.parseInt] ([None] for NaN); [sent] is the sid that
    [sendMessage] obtained, [None] when the API call failed (then
    [sendMessage] itself exits with code 1); the lines that
    [sendMessage] prints are left out of the trace. *)
Definition sendAction (wait poll : option Z) (sent : option string)
    (now : Z) (rounds : nat -> Round) : option Outcome :=
  let refuse line := Some (mkOutcome (Exited 1) [ConsoleError line] now) in
  match wait with
  | None => refuse "Wait must be >= 0 seconds"
  | Some waitSeconds =>
      if waitSeconds <? 0 then refuse "Wait must be >= 0 seconds"
      else
        match poll with
        | None => refuse "Poll must be > 0 seconds"
        | Some pollSeconds =>
            if pollSeconds <=? 0 then refuse "Poll must be > 0 seconds"
            else
              match sent with
              | None => Some (mkOutcome (Exited 1) [] now)
              | Some _ =>
                  if waitSeconds =? 0 then Some (mkOutcome Returned [] now)
                  else waitForFinalStatus now waitSeconds pollSeconds rounds
              end
        end
  end.

End Dispatch.

(** ** Thrown values and the error helpers of [src/provider-web.ts] *)

Module Err.

(** The values that reach a [catch] in the modelled code: an [Error]
    instance (such as a Boom error, which carries [output.statusCode]),
    a string, or a plain object such as Baileys' [lastDisconnect]
    ([{ error, date }]) with the properties the code reads. *)
Inductive Thrown :=
| AnError (message : string) (output_statusCode : option Z)
| AString (s : string)
| AnObject (error_output_statusCode output_statusCode status : option Z)
           (code : option string).

Inductive Try (A : Type) :=
| Ok (a : A)
| Throws (e : Thrown).
Arguments Ok {A} a.
Arguments Throws {A} e.

(** [String(err)] *)
Definition toString (e : Thrown) : string :=
  match e with
  | AnError m _ => "Error: " +:+ m
  | AString s => s
  | AnObject _ _ _ _ => "[object Object]"
  end.

(** [getStatusCode]: [err?.output?.statusCode ?? err?.status]. *)
Definition getStatusCode (e : Thrown) : option Z :=
  match e with
  | AnError _ o => o
  | AString _ => None
  | AnObject _ o s _ => Js.nullish o s
  end.

(** [formatError] *)
Definition formatError (e : Thrown) : string :=
  match e with
  | AnError m _ => m
  | AString s => s
  | AnObject _ _ _ code =>
      let status := getStatusCode e in
      if Js.truthyNum status || Js.truthy code then
        "status=" +:+ Js.orElse (Js.showZ <$> status) "unknown"
          +:+ " code=" +:+ Js.orElse code "unknown"
      else toString e
  end.

End Err.

(** ** Media guard: [loadWebMedia] of [src/provider-web.ts] *)

Module Media.
Import Err.

(** A [Buffer], as far as the guard looks at it: its [length] and its
    bytes by index. *)
Record Buffer := mkBuffer {
  bufLength : Z;
  bufByte : Z -> Byte.byte
}.

(** The [Response] of [fetch]: [ok], [status], the body ([None] when
    [res.body] is null) and the [content-type] header. *)
Record Response := mkResponse {
  ok : bool;
  httpStatus : Z;
  body : option Buffer;
  contentType : option string
}.

(** The outside world of the guard. *)
Record World := mkWorld {
  fetch : string -> Try Response;
  readFile : string -> Try Buffer
}.

Inductive Effect :=
| Fetch (url : string)
| ArrayBuffer                 (* the body is read: [res.arrayBuffer()] *)
| ReadFile (path : string).

Record Loaded := mkLoaded {
  buffer : Buffer;
  loadedType : option string
}.

Definition MAX_WEB_BYTES : Z := 16 * 1024 * 1024.

(** [(n / (1024 * 1024)).toFixed(1)] for a byte count [n]: the quotient
    is exact in a double, [toFixed] rounds it to the nearest tenth,
    upwards on a tie. *)
Definition megabytesFixed1 (n : Z) : string :=
  let tenths := (10 * n + 512 * 1024) / (1024 * 1024) in
  Js.showZ (tenths / 10) +:+ "." +:+ Js.showZ (tenths mod 10).

Definition tooLarge (n : Z) : Thrown :=
  AnError ("Media exceeds " +:+ Js.showZ (MAX_WEB_BYTES / (1024 * 1024))
             +:+ "MB limit (got " +:+ megabytesFixed1 n +:+ "MB)") None.

Definition fetchFailed (res : Response) : Thrown :=
  AnError ("Failed to fetch media: HTTP " +:+ Js.showZ (httpStatus res)) None.

(** [/^https?:\/\//i.test(url)] *)
Definition isHttpUrl (url : string) : bool :=
  let l := Js.lower url in
  Js.startsWith l "http://" || Js.startsWith l "https://".

(** [mediaUrl.replace("file://", "")] under [startsWith("file://")]:
    the first occurrence is the prefix. *)
Definition stripFileScheme (url : string) : string :=
  if Js.startsWith url "file://" then Js.drop 7 url else url.

Definition loadWebMedia (w : World) (mediaUrl : string)
  : Try Loaded * list Effect :=
  let mediaUrl := stripFileScheme mediaUrl in
  if isHttpUrl mediaUrl then
    match fetch w mediaUrl with
    | Throws e => (Throws e, [Fetch mediaUrl])
    | Ok res =>
        match ok res, body res with
        | true, Some array =>
            if bufLength array >? MAX_WEB_BYTES then
              (Throws (tooLarge (bufLength array)), [Fetch mediaUrl; ArrayBuffer])
            else
              (Ok (mkLoaded array (contentType res)), [Fetch mediaUrl; ArrayBuffer])
        | _, _ => (Throws (fetchFailed res), [Fetch mediaUrl])
        end
    end
  else
    match readFile w mediaUrl with
    | Throws e => (Throws e, [ReadFile mediaUrl])
    | Ok data =>
        if bufLength data >? MAX_WEB_BYTES then
          (Throws (tooLarge (bufLength data)), [ReadFile mediaUrl])
        else (Ok (mkLoaded data None), [ReadFile mediaUrl])
    end.

(** The bytes the world holds for a media reference: the body of a
    successful response for a remote URL, the file's content for a
    local path. *)
Definition payload (w : World) (mediaUrl : string) : option Buffer :=
  let mediaUrl := stripFileScheme mediaUrl in
  if isHttpUrl mediaUrl then
    match fetch w mediaUrl with
    | Ok res => if ok res then body res else None
    | Throws _ => None
    end
  else
    match readFile w mediaUrl with
    | Ok data => Some data
    | Throws _ => None
    end.

End Media.

(** ** The credential store on disk *)

Module Fs.

(** A path is its list of components; the file system is the set of
    paths that exist (files and directories alike). *)
Definition Path := list string.

(** [path.join(os.homedir(), ".warelay", "credentials")] *)
Definition WA_WEB_AUTH_DIR (home : Path) : Path :=
  home ++ [".warelay"; "credentials"].

(** [path.join(WA_WEB_AUTH_DIR, "creds.json")], the identity record
    that [readWebSelfId] reads. *)
Definition credsPath (home : Path) : Path :=
  WA_WEB_AUTH_DIR home ++ ["creds.json"].

(** [fs.access(p)] resolves. *)
Definition access (fs : gset Path) (p : Path) : bool := bool_decide (p ∈ fs).

(** [fs.rm(p, { recursive: true, force: true })]: [p] and everything
    below it is gone; a missing [p] is not an error. *)
Definition rmRecursive (p : Path) (fs : gset Path) : gset Path :=
  filter (fun q => ¬ p `prefix_of` q) fs.

(** [ensureDir(p)] of [utils.ts] (mkdir -p): [p] exists afterwards. *)
Definition ensureDir (p : Path) (fs : gset Path) : gset Path := {[ p ]} ∪ fs.

End Fs.

(** ** Session transport login: [loginWeb] of [src/provider-web.ts] *)

Module Login.
Import Err.

(** Baileys' [DisconnectReason.loggedOut] and the restart-required
    code that [loginWeb] spells out. *)
Definition loggedOut : Z := 401.
Definition restartRequired : Z := 515.

(** What [waitForConnection(sock)] settles to: resolved on ["open"],
    rejected with [lastDisconnect ?? new Error("Connection closed")]
    on ["close"]. *)
Inductive Connection :=
| Opened
| Closed (reason : Thrown).

(** The two sockets of a login: the first one and the retry. *)
Inductive Sock := FirstSock | RetrySock.

Inductive Event :=
| CreateSocket (s : Sock) (printQr : bool)  (* [createWaSocket(printQr, verbose)] *)
| LogInfo (line : string)
| ConsoleLog (line : string)
| ConsoleError (line : string)
| CloseNow (s : Sock)                       (* [sock.ws?.close()] *)
| CloseLater (s : Sock) (ms : Z)            (* [setTimeout(() => sock.ws?.close(), ms)] *)
| RemoveDir (p : Fs.Path).                  (* [fs.rm(p, { recursive: true, force: true })] *)

Record Outcome := mkOutcome {
  result : Try unit;            (* resolved, or rejected with a value *)
  disk : gset Fs.Path;          (* the file system afterwards *)
  events : list Event
}.

(** The [code] that the [catch] of [loginWeb] computes:
    [err?.error?.output?.statusCode ?? err?.output?.statusCode]. *)
Definition closeCode (e : Thrown) : option Z :=
  match e with
  | AnError _ o => o
  | AString _ => None
  | AnObject eo o _ _ => Js.nullish eo o
  end.

Definition linkedLine : string :=
  "✅ Linked! Credentials saved for future sends.".
Definition restartLine : string :=
  "WhatsApp asked for a restart after pairing (code 515); creds are saved. Restarting connection once…".
Definition linkedAfterRestartLine : string :=
  "✅ Linked after restart; web session ready. You can now send with provider=web.".
Definition loggedOutLine : string :=
  "WhatsApp reported the session is logged out. Cleared cached web session; please rerun warelay login and scan the QR again.".
Definition loggedOutError : Thrown :=
  AnError "Session logged out; cache cleared. Re-run login." None.
Definition endedLine (formatted : string) : string :=
  "WhatsApp Web connection ended before fully opening. " +:+ formatted.

(** [loginWeb]: [first] is how the first socket's connection settles,
    [retry] how the retry socket's would. *)
Definition loginWeb (home : Fs.Path) (fs : gset Fs.Path)
    (first retry : Connection) : Outcome :=
  let dir := Fs.WA_WEB_AUTH_DIR home in
  let fs1 := Fs.ensureDir dir fs in
  let start := [CreateSocket FirstSock true;
                LogInfo "Waiting for WhatsApp connection..."] in
  match first with
  | Opened =>
      mkOutcome (Ok tt) fs1
        (start ++ [ConsoleLog linkedLine; CloseLater FirstSock 500])
  | Closed err =>
      let code := closeCode err in
      if bool_decide (code = Some restartRequired) then
        let again := start ++ [ConsoleLog restartLine; CloseNow FirstSock;
                               CreateSocket RetrySock false] in
        let fs2 := Fs.ensureDir dir fs1 in
        match retry with
        | Opened =>
            mkOutcome (Ok tt) fs2
              (again ++ [ConsoleLog linkedAfterRestartLine;
                         CloseLater RetrySock 500; CloseLater FirstSock 500])
        | Closed err2 =>
            mkOutcome (Throws err2) fs2
              (again ++ [CloseLater RetrySock 500; CloseLater FirstSock 500])
        end
      else if bool_decide (code = Some loggedOut) then
        mkOutcome (Throws loggedOutError) (Fs.rmRecursive dir fs1)
          (start ++ [RemoveDir dir; ConsoleError loggedOutLine;
                     CloseLater FirstSock 500])
      else
        let formatted := formatError err in
        mkOutcome (Throws (AnError formatted None)) fs1
          (start ++ [ConsoleError (endedLine formatted);
                     CloseLater FirstSock 500])
  end.

(** Number of sockets a login created without the pairing prompt
    (the automatic reconnects) and with it. *)
Definition reconnects (log : list Event) : nat :=
  List.length (List.filter
    (fun e => match e with CreateSocket _ false => true | _ => false end) log).
Definition prompts (log : list Event) : nat :=
  List.length (List.filter
    (fun e => match e with CreateSocket _ true => true | _ => false end) log).

Definition removesDir (log : list Event) : bool :=
  existsb (fun e => match e with RemoveDir _ => true | _ => false end) log.

End Login.

(** ** Provider selection: [pickProvider] and [webAuthExists] *)

Module Selector.

(** [Provider] of [utils.ts] is ["twilio" | "web"]. *)
Inductive Provider := twilio | web.

(** The preference: a provider, or ["auto"]. *)
Inductive Preference :=
| Explicit (p : Provider)
| Auto.

(** [webAuthExists]: whether [fs.access(WA_WEB_AUTH_DIR)] resolves. *)
Definition webAuthExists (home : Fs.Path) (fs : gset Fs.Path) : bool :=
  Fs.access fs (Fs.WA_WEB_AUTH_DIR home).

(** [pickProvider], with the paths it probed on the way. *)
Definition pickProvider (home : Fs.Path) (fs : gset Fs.Path)
    (pref : Preference) : Provider * list Fs.Path :=
  match pref with
  | Explicit p => (p, [])
  | Auto =>
      let hasWeb := webAuthExists home fs in
      (if hasWeb then web else twilio, [Fs.WA_WEB_AUTH_DIR home])
  end.

(** A credential snapshot, in the specification's sense (the stored
    session with its identity record), is on disk when the identity
    record [creds.json] exists in the credential directory. *)
Definition snapshotExists (home : Fs.Path) (fs : gset Fs.Path) : bool :=
  Fs.access fs (Fs.credsPath home).

End Selector.

(** ** Session transport inbox: [monitorWebInbox], [extractText],
       [extractMediaPlaceholder] and [downloadInboundMedia] *)

Module Inbox.
Import Err.

(** [proto.IMessageKey] *)
Record MessageKey := mkKey {
  id : option string;
  fromMe : bool;
  remoteJid : option string;
  participant : option string
}.

(** [extendedTextMessage] *)
Record ExtendedText := mkExtended {
  text : option string
}.

(** A media part ([imageMessage], [videoMessage], ...). *)
Record MediaPart := mkMedia {
  caption : option string;
  mimetype : option string
}.

(** [proto.IMessage], the fields that are read. *)
Record IMessage := mkIMessage {
  conversation : option string;
  extendedTextMessage : option ExtendedText;
  imageMessage : option MediaPart;
  videoMessage : option MediaPart;
  audioMessage : option MediaPart;
  documentMessage : option MediaPart;
  stickerMessage : option MediaPart
}.

(** [WAMessage] *)
Record WAMessage := mkWAMessage {
  key : option MessageKey;
  message : option IMessage;
  pushName : option string;
  messageTimestamp : option Z
}.

(** [WebInboundMessage]; the three closures all act on [chatJid]. *)
Record WebInboundMessage := mkInbound {
  inId : option string;
  inFrom : string;
  inTo : string;
  inBody : string;
  inPushName : option string;
  inTimestamp : option Z;
  inMediaPath : option string;
  inMediaType : option string;
  chatJid : string
}.

(** A non-empty trimmed string, or nothing: [s?.trim()] used as a
    condition and then returned. *)
Definition trimmed (s : option string) : option string :=
  match s with
  | Some s => if Js.truthy (Some (Js.trim s)) then Some (Js.trim s) else None
  | None => None
  end.

Definition extractText (message : option IMessage) : option string :=
  match message with
  | None => None
  | Some message =>
      match trimmed (conversation message) with
      | Some t => Some t
      | None =>
          let extended := extendedTextMessage message ≫= text in
          match trimmed extended with
          | Some t => Some t
          | None =>
              let cap :=
                Js.nullish (imageMessage message ≫= caption)
                           (videoMessage message ≫= caption) in
              trimmed cap
          end
      end
  end.

Definition extractMediaPlaceholder (message : option IMessage) : option string :=
  match message with
  | None => None
  | Some message =>
      if Js.present (imageMessage message) then Some "<media:image>"
      else if Js.present (videoMessage message) then Some "<media:video>"
      else if Js.present (audioMessage message) then Some "<media:audio>"
      else if Js.present (documentMessage message) then Some "<media:document>"
      else if Js.present (stickerMessage message) then Some "<media:sticker>"
      else None
  end.

(** The body that [monitorWebInbox] gives an accepted event: the text,
    else the placeholder; [None] when the event is dropped for having
    neither. *)
Definition bodyOf (message : option IMessage) : option string :=
  if Js.truthy (extractText message) then extractText message
  else if Js.truthy (extractMediaPlaceholder message)
       then extractMediaPlaceholder message
       else None.

(** What the socket and the surrounding modules answer. *)
Record Env := mkEnv {
  selfJid : option string;                            (* [sock.user?.id] *)
  jidToE164 : string -> option string;                (* of [utils.ts] *)
  readMessages : string -> string -> option string -> Try unit;
  downloadMediaMessage : WAMessage -> Try Media.Buffer;
  saveMediaBuffer : Media.Buffer -> option string -> Try string;
  onMessage : WebInboundMessage -> Try unit           (* [options.onMessage] *)
}.

Inductive Event :=
| ReadMessages (remoteJid id : string) (participant : option string)
| LogVerbose (line : string)
| InboundLogged (m : WebInboundMessage)   (* [inboundLogger.info] *)
| OnMessage (m : WebInboundMessage)       (* the call of [options.onMessage] *)
| ConsoleError (line : string).

(** [downloadInboundMedia]: buffer and mime type of the attachment,
    with what it logged. *)
Definition downloadInboundMedia (env : Env) (msg : WAMessage)
  : option (Media.Buffer * option string) * list Event :=
  match message msg with
  | None => (None, [])
  | Some m =>
      let mime :=
        Js.nullish (imageMessage m ≫= mimetype)
          (Js.nullish (videoMessage m ≫= mimetype)
             (Js.nullish (documentMessage m ≫= mimetype)
                (Js.nullish (audioMessage m ≫= mimetype)
                   (stickerMessage m ≫= mimetype)))) in
      if Js.present (imageMessage m) || Js.present (videoMessage m)
         || Js.present (documentMessage m) || Js.present (audioMessage m)
         || Js.present (stickerMessage m)
      then
        match downloadMediaMessage env msg with
        | Ok buffer => (Some (buffer, mime), [])
        | Throws e =>
            (None, [LogVerbose ("downloadMediaMessage failed: " +:+ toString e)])
        end
      else (None, [])
  end.

(** The media part of the loop body: saved path and type, and log. *)
Definition inboundMedia (env : Env) (msg : WAMessage)
  : option string * option string * list Event :=
  match downloadInboundMedia env msg with
  | (None, log) => (None, None, log)
  | (Some (buffer, mime), log) =>
      match saveMediaBuffer env buffer mime with
      | Ok path => (Some path, mime, log)
      | Throws e =>
          (None, None,
           log ++ [LogVerbose ("Inbound media download failed: " +:+ toString e)])
      end
  end.

(** One turn of [for (const msg of upsert.messages)]. The test on
    [seen] and the [seen.add] run without an [await] between them, so
    turns of overlapping listener calls cannot interleave there; the
    lines printed only under [isVerbose()] are left out of the trace. *)
Definition processMessage (env : Env) (acc : gset string * list Event)
    (msg : WAMessage) : gset string * list Event :=
  let '(seen, log) := acc in
  let mid := key msg ≫= id in
  if Js.truthy mid && bool_decide (Js.orElse mid "" ∈ seen) then acc
  else
    let seen := if Js.truthy mid then {[ Js.orElse mid "" ]} ∪ seen else seen in
    if Js.orElse (fromMe <$> key msg) false then (seen, log)
    else
      match key msg ≫= remoteJid with
      | None => (seen, log)
      | Some rjid =>
          if negb (Js.truthy (Some rjid)) then (seen, log)
          else if Js.endsWith rjid "@status" || Js.endsWith rjid "@broadcast"
          then (seen, log)
          else
            let part := key msg ≫= participant in
            let log :=
              if Js.truthy mid then
                log ++ ReadMessages rjid (Js.orElse mid "") part ::
                  match readMessages env rjid (Js.orElse mid "") part with
                  | Ok _ => []
                  | Throws e =>
                      [LogVerbose ("Failed to mark message " +:+ Js.orElse mid ""
                                     +:+ " read: " +:+ toString e)]
                  end
              else log in
            let from := jidToE164 env rjid in
            if negb (Js.truthy from) then (seen, log)
            else
              match bodyOf (message msg) with
              | None => (seen, log)
              | Some body =>
                  let '(mediaPath, mediaType, mlog) := inboundMedia env msg in
                  let timestamp :=
                    if Js.truthyNum (messageTimestamp msg)
                    then Some (Js.orElse (messageTimestamp msg) 0 * 1000)
                    else None in
                  let selfE164 :=
                    if Js.truthy (selfJid env)
                    then jidToE164 env (Js.orElse (selfJid env) "")
                    else None in
                  let m := mkInbound mid (Js.orElse from "") (Js.orElse selfE164 "me")
                             body (pushName msg) timestamp mediaPath mediaType rjid in
                  (seen,
                   log ++ mlog ++ InboundLogged m :: OnMessage m ::
                     match onMessage env m with
                     | Ok _ => []
                     | Throws e =>
                         [ConsoleError ("Failed handling inbound web message: "
                                          +:+ toString e)]
                     end)
              end
      end.

(** A ["messages.upsert"] event. *)
Record Upsert := mkUpsert {
  upsertType : string;
  messages : list WAMessage
}.

(** The listener: other types than ["notify"] are ignored. *)
Definition handleUpsert (env : Env) (acc : gset string * list Event)
    (u : Upsert) : gset string * list Event :=
  if negb (String.eqb (upsertType u) "notify") then acc
  else fold_left (processMessage env) (messages u) acc.

(** The listener over the whole event stream of one socket, from the
    empty [seen] set. *)
Definition monitorWebInbox (env : Env) (upserts : list Upsert)
  : gset string * list Event :=
  fold_left (handleUpsert env) upserts (∅, []).

(** The messages handed to [options.onMessage], in order. *)
Definition dispatched (log : list Event) : list WebInboundMessage :=
  omap (fun e => match e with OnMessage m => Some m | _ => None end) log.

(** The id under which a dispatched message is de-duplicated: the
    id when the code's [if (id)] test holds of it. *)
Definition dedupId (m : WebInboundMessage) : option string :=
  if Js.truthy (inId m) then inId m else None.

(** What holds of the listener's state and trace at every point:
    every dispatched id is in [seen], and none was dispatched twice. *)
Definition inboxInv (acc : gset string * list Event) : Prop :=
  (∀ i, i ∈ omap dedupId (dispatched acc.2) → i ∈ acc.1)
  ∧ NoDup (omap dedupId (dispatched acc.2)).

End Inbox.

(** ** Auto-reply handler: the [onMessage] of [monitorWebProvider] *)

Module Reply.
Import Err.

(** What the reply resolver returns. *)
Record ReplyResult := mkReply {
  text : option string;
  mediaUrl : option string
}.

Inductive Event :=
| InboundLine (from to body : string)      (* the [console.log] of the message *)
| LogVerbose (line : string)
| Guard (e : Media.Effect)                 (* what [loadWebMedia] did *)
| SendMedia (image : Media.Buffer) (caption mimetype : option string)
| ReplyText (text : string)                (* [msg.reply(text)] *)
| LogInfo (line : string)
| SentMediaInfo (to : string) (bytes : Z)  (* "Sent web media reply to ..." *)
| ReplyLogged (message : string)           (* [replyLogger.info(_, message)] *)
| AutoReplied (text : option string) (media : bool)   (* the closing [console.log] *)
| ConsoleError (line : string).

(** The outside world of one handler run. *)
Record Env := mkEnv {
  world : Media.World;
  resolver : Try (option ReplyResult);     (* [replyResolver(ctx, hooks)] *)
  sendMedia : Try unit;                    (* [msg.sendMedia(payload)] *)
  reply : Try unit                         (* [msg.reply(text)] *)
}.

(** [text || undefined] *)
Definition orUndefined (s : option string) : option string :=
  if Js.truthy s then s else None.

(** The inner [try] block for a media reply: [Ok] when the media went
    out, [Throws] with what the guard or the send threw. *)
Definition sendMediaReply (env : Env) (from : string) (r : ReplyResult) (url : string)
  : Try unit * list Event :=
  let '(loaded, effects) := Media.loadWebMedia (world env) url in
  let log := Guard <$> effects in
  match loaded with
  | Throws e => (Throws e, log)
  | Ok media =>
      let payload := SendMedia (Media.buffer media) (orUndefined (text r))
                               (Media.loadedType media) in
      match sendMedia env with
      | Throws e => (Throws e, log ++ [payload])
      | Ok _ =>
          (Ok tt, log ++ [payload;
                          SentMediaInfo from (Media.bufLength (Media.buffer media));
                          ReplyLogged "auto-reply sent (media)"])
      end
  end.

(** The handler. The result is what the returned promise settles to.
    Time stamps, durations and the lines printed only under
    [isVerbose()] are left out of the trace. *)
Definition onMessage (env : Env) (msg : Inbox.WebInboundMessage)
  : Try unit * list Event :=
  let from := Inbox.inFrom msg in
  let head := [InboundLine from (Inbox.inTo msg) (Inbox.inBody msg)] in
  match resolver env with
  | Throws e => (Throws e, head)
  | Ok None =>
      (Ok tt, head ++ [LogVerbose "Skipping auto-reply: no text/media returned from resolver"])
  | Ok (Some r) =>
      if negb (Js.truthy (text r)) && negb (Js.truthy (mediaUrl r)) then
        (Ok tt, head ++ [LogVerbose "Skipping auto-reply: no text/media returned from resolver"])
      else
        let closing := [AutoReplied (text r) (Js.truthy (mediaUrl r));
                        ReplyLogged "auto-reply sent"] in
        let failed e :=
          [ConsoleError ("Failed sending web auto-reply to " +:+ from +:+ ": "
                           +:+ toString e)] in
        if Js.truthy (mediaUrl r) then
          let url := Js.orElse (mediaUrl r) "" in
          let detected := LogVerbose ("Web auto-reply media detected: " +:+ url) in
          match sendMediaReply env from r url with
          | (Ok _, log) => (Ok tt, head ++ detected :: log ++ closing)
          | (Throws e, log) =>
              let caught :=
                head ++ detected :: log ++
                  [ConsoleError ("Failed sending web media to " +:+ from +:+ ": "
                                   +:+ toString e)] in
              if Js.truthy (text r) then
                let t := Js.orElse (text r) "" in
                match reply env with
                | Throws e2 => (Ok tt, caught ++ ReplyText t :: failed e2)
                | Ok _ =>
                    (Ok tt,
                     caught ++ [ReplyText t;
                                LogInfo ("⚠️  Media skipped; sent text-only to " +:+ from);
                                ReplyLogged "auto-reply sent (text fallback)"]
                            ++ closing)
                end
              else (Ok tt, caught ++ closing)
          end
        else
          let t := Js.orElse (text r) "" in
          match reply env with
          | Throws e => (Ok tt, head ++ ReplyText t :: failed e)
          | Ok _ => (Ok tt, head ++ ReplyText t :: closing)
          end
  end.

(** The replies that went out to the sender (calls on the socket that
    did not throw are not told apart from those that did: the call is
    what the handler decides). *)
Definition isReply (e : Event) : bool :=
  match e with
  | ReplyText _ => true
  | _ => false
  end.

Definition isMediaSend (e : Event) : bool :=
  match e with
  | SendMedia _ _ _ => true
  | _ => false
  end.

Definition isFailureLog (from : string) (e : Event) : bool :=
  match e with
  | ConsoleError line =>
      Js.startsWith line ("Failed sending web media to " +:+ from +:+ ": ")
  | _ => false
  end.

End Reply.

(** ** Concrete inputs used by the examples *)

Module Samples.
Import Err.

Definition home : Fs.Path := ["home"; "relay"].

(** Poll transport: the same inbound entry listed twice in one window,
    and an outbound one. *)
Definition wamidA : Poll.MessageInstance :=
  Poll.mkMessage "wamid.A" "inbound" (Some 1700000050000)
    (Some "whatsapp:+15551234567") "whatsapp:+15550000001" (Some "hello").
Definition wamidB : Poll.MessageInstance :=
  Poll.mkMessage "wamid.B" "inbound" (Some 1700000020000)
    (Some "whatsapp:+15551234567") "whatsapp:+15550000001" (Some "earlier").
Definition outbound : Poll.MessageInstance :=
  Poll.mkMessage "SM9" "outbound-api" (Some 1700000090000)
    (Some "whatsapp:+15550000001") "whatsapp:+15551234567" (Some "reply").

(** Dispatcher: rounds that show the listed statuses one after the
    other and the last one for ever, each fetch taking 120 ms. *)
Definition showing (l : list Dispatch.Fetched) (last : Dispatch.Fetched)
  : nat -> Dispatch.Round :=
  fun i => Dispatch.mkRound 120 (nth i l last) 3.
Definition plain (status : string) : Dispatch.Fetched :=
  Dispatch.mkFetched (Some status) None None.
Definition scenarioB : nat -> Dispatch.Round :=
  showing [plain "queued"; plain "sent"] (plain "delivered").
Definition undeliverable : nat -> Dispatch.Round :=
  showing [plain "queued"]
    (Dispatch.mkFetched (Some "undelivered") (Some 63016) (Some "outside window")).
Definition stuck : nat -> Dispatch.Round :=
  showing [] (plain "sent").

(** Media guard: buffers by length, and worlds serving them. *)
Definition zeros (n : Z) : Media.Buffer := Media.mkBuffer n (fun _ => Byte.x00).
Definition serving (res : Media.Response) (file : Try Media.Buffer) : Media.World :=
  Media.mkWorld (fun _ => Ok res) (fun _ => file).
Definition atCap : Media.World :=
  serving (Media.mkResponse true 200 (Some (zeros Media.MAX_WEB_BYTES)) (Some "image/png"))
          (Ok (zeros Media.MAX_WEB_BYTES)).
Definition overCap : Media.World :=
  serving (Media.mkResponse true 200 (Some (zeros (Media.MAX_WEB_BYTES + 1))) (Some "image/png"))
          (Ok (zeros (Media.MAX_WEB_BYTES + 1))).
Definition notFound : Media.World :=
  serving (Media.mkResponse false 404 (Some (zeros 9)) None)
          (Throws (AnError "ENOENT: no such file or directory" None)).

(** Login: close reasons as Baileys reports them in [lastDisconnect]. *)
Definition closedWith (code : Z) : Thrown := AnObject (Some code) None None None.

(** Inbox: a socket whose calls all succeed, and events from one chat. *)
Definition quietSocket : Inbox.Env :=
  Inbox.mkEnv (Some "15550000001:7@s.whatsapp.net")
    (fun jid => if Js.startsWith jid "15551234567" then Some "+15551234567"
                else if Js.startsWith jid "15550000001" then Some "+15550000001"
                else None)
    (fun _ _ _ => Ok tt)
    (fun _ => Throws (AString "no media"))
    (fun _ _ => Ok "/tmp/media")
    (fun _ => Ok tt).
Definition saying (text : string) : option Inbox.IMessage :=
  Some (Inbox.mkIMessage (Some text) None None None None None None).
Definition event (id : option string) (text : string) : Inbox.WAMessage :=
  Inbox.mkWAMessage
    (Some (Inbox.mkKey id false (Some "15551234567@s.whatsapp.net") None))
    (saying text) (Some "Ann") (Some 1700000000).
Definition notify (l : list Inbox.WAMessage) : Inbox.Upsert :=
  Inbox.mkUpsert "notify" l.

(** Auto-reply: a resolver result with a media URL, with and without
    text, in a world where the fetch answers 404. *)
Definition replying (text : option string) : Reply.Env :=
  Reply.mkEnv notFound (Ok (Some (Reply.mkReply text (Some "https://x/y.png"))))
    (Ok tt) (Ok tt).
Definition inbound : Inbox.WebInboundMessage :=
  Inbox.mkInbound (Some "wamid.A") "+15551234567" "+15550000001" "hello"
    (Some "Ann") (Some 1700000000000) None None "15551234567@s.whatsapp.net".

End Samples.

(** * More of the relay: the rest of [src/index.ts],
      [src/provider-web.ts] and the commands of [src/cli/program.ts] *)

From Stdlib Require Import Sorted.

(** ** Numbers and sender lookup: [withWhatsAppPrefix] and
       [findWhatsappSenderSid] of [src/index.ts] *)

Module Twilio.
Import Err.

(** [withWhatsAppPrefix] *)
Definition withWhatsAppPrefix (number : string) : string :=
  if Js.startsWith number "whatsapp:" then number else "whatsapp:" +:+ number.

(** An entry of [data.senders] that is a non-null object, with its
    [sender_id] and [sid] when they are strings. *)
Record Sender := mkSender {
  sender_id : option string;
  senderSid : option string
}.

(** The predicate of [senders.find]; [None] is an entry that is not an
    object. *)
Definition isSender (from : string) (s : option Sender) : bool :=
  match s with
  | Some s => bool_decide (sender_id s = Some (withWhatsAppPrefix from))
  | None => false
  end.

Definition unableToList : Thrown :=
  AnError "Unable to list WhatsApp senders" None.
Definition couldNotFind (from : string) : Thrown :=
  AnError ("Could not find sender " +:+ withWhatsAppPrefix from
             +:+ " in Twilio account") None.

(** [findWhatsappSenderSid]: [resp] is what [client.request] settled
    to, with [data.senders] when it is an array. *)
Definition findWhatsappSenderSid
    (resp : Try (option (list (option Sender)))) (from : string) : Try string :=
  match resp with
  | Throws e => Throws e
  | Ok None => Throws unableToList
  | Ok (Some senders) =>
      match List.find (isSender from) senders with
      | Some (Some s) =>
          match senderSid s with
          | Some sid => Ok sid
          | None => Throws (couldNotFind from)
          end
      | _ => Throws (couldNotFind from)
      end
  end.

End Twilio.

(** ** Templates: [applyTemplate] of [src/index.ts] *)

Module Template.

(** [\w] *)
Definition isWordChar (c : ascii) : bool :=
  let n := nat_of_ascii c in
  ((48 <=? n) && (n <=? 57) || (65 <=? n) && (n <=? 90)
   || (97 <=? n) && (n <=? 122) || (n =? 95))%nat.

(** The longest run of word characters at the start, and the rest. *)
Fixpoint takeWord (s : string) : string * string :=
  match s with
  | String c r =>
      if isWordChar c then (String c (takeWord r).1, (takeWord r).2)
      else (EmptyString, s)
  | EmptyString => (EmptyString, EmptyString)
  end.

(** The pattern [{{\s*(\w+)\s*}}] tried at the start of [s]: the key and
    what follows the match. White space, word characters and the brace
    exclude one another, so the greedy reading is the only one. *)
Definition matchAt (s : string) : option (string * string) :=
  match s with
  | String "{" (String "{" r) =>
      let w := takeWord (Js.trimStart r) in
      match w.1 with
      | EmptyString => None
      | key =>
          match Js.trimStart w.2 with
          | String "}" (String "}" rest) => Some (key, rest)
          | _ => None
          end
      end
  | _ => None
  end.

(** [str.replace(/{{\s*(\w+)\s*}}/g, ...)]: matches are taken from left
    to right and do not overlap. [ctx key] is [String(ctx[key])], [None]
    when the value is null or undefined. *)
Fixpoint render (fuel : nat) (ctx : string -> option string) (s : string) : string :=
  match fuel with
  | O => s
  | S fuel' =>
      match matchAt s with
      | Some (key, rest) => Js.orElse (ctx key) "" +:+ render fuel' ctx rest
      | None =>
          match s with
          | EmptyString => EmptyString
          | String c r => String c (render fuel' ctx r)
          end
      end
  end.

(** [applyTemplate]: one unit of fuel per character is enough. *)
Definition applyTemplate (str : string) (ctx : string -> option string) : string :=
  render (S (String.length str)) ctx str.

(** [MsgContext] as the object it is: its four own properties, and
    whatever else a key finds on the prototype ([inherited]). *)
Record MsgContext := mkContext {
  ctxBody : option string;
  ctxFrom : option string;
  ctxTo : option string;
  ctxMessageSid : option string
}.

Definition property (inherited : string -> option string) (ctx : MsgContext)
    (key : string) : option string :=
  if String.eqb key "Body" then ctxBody ctx
  else if String.eqb key "From" then ctxFrom ctx
  else if String.eqb key "To" then ctxTo ctx
  else if String.eqb key "MessageSid" then ctxMessageSid ctx
  else inherited key.

(** No ["{{"] anywhere in the string. *)
Fixpoint noOpening (s : string) : bool :=
  match s with
  | String "{" ((String "{" _) as r) => false
  | String _ r => noOpening r
  | EmptyString => true
  end.

(** Strings of white space, of word characters, and without a brace. *)
Fixpoint allSpace (s : string) : bool :=
  match s with
  | String c r => Js.isSpace c && allSpace r
  | EmptyString => true
  end.
Fixpoint allWord (s : string) : bool :=
  match s with
  | String c r => isWordChar c && allWord r
  | EmptyString => true
  end.
Fixpoint noBrace (s : string) : bool :=
  match s with
  | String c r => negb (Ascii.eqb c "{") && noBrace r
  | EmptyString => true
  end.

End Template.

(** ** Configured replies: [getReplyFromConfig] of [src/index.ts] *)

Module Config.
Import Err.

(** [cfg.inbound.reply] *)
Record ReplyConfig := mkReplyConfig {
  mode : string;
  text : option string;
  command : option (list string);
  template : option string
}.

Inductive Event :=
| Exec (file : string) (args : list string)   (* [execFileAsync(file, args, ...)] *)
| ConsoleError (line : string).

(** [getReplyFromConfig]: [reply] is [loadConfig().inbound?.reply],
    [exec] gives the [stdout] of a command or what running it threw. *)
Definition getReplyFromConfig (inherited : string -> option string)
    (reply : option ReplyConfig) (exec : string -> list string -> Try string)
    (ctx : Template.MsgContext) : option string * list Event :=
  let fill s := Template.applyTemplate s (Template.property inherited ctx) in
  match reply with
  | None => (None, [])
  | Some reply =>
      if String.eqb (mode reply) "text" && Js.truthy (text reply) then
        (Some (fill (Js.orElse (text reply) "")), [])
      else if String.eqb (mode reply) "command" then
        match command reply with
        | Some (first :: others) =>
            let templatePrefix :=
              if Js.truthy (template reply)
              then fill (Js.orElse (template reply) "") else "" in
            let file := fill first in
            let args :=
              if Js.truthy (Some templatePrefix)
              then templatePrefix :: (fill <$> others)
              else fill <$> others in
            match exec file args with
            | Ok stdout => (Some (Js.trim stdout), [Exec file args])
            | Throws _ =>
                (None, [Exec file args; ConsoleError "Command auto-reply failed"])
            end
        | _ => (None, [])
        end
      else (None, [])
  end.

End Config.

(** ** Webhook ingress: the [app.post] handler of [startWebhook] *)

Module Webhook.
Import Err.

(** The form fields of the request ([req.body ?? {}]). *)
Record Form := mkForm {
  formFrom : option string;
  formTo : option string;
  formBody : option string;
  formMessageSid : option string
}.

Inductive Event :=
| ConsoleLog (line : string)
| Lookup (e : Config.Event)              (* what [getReplyFromConfig] did *)
| CreateMessage (from to : option string) (body : string)
                                         (* [client.messages.create({from, to, body})] *)
| ConsoleError (line : string)
| Respond (contentType body : string).   (* [res.type(contentType).send(body)] *)

(** A value inside a template literal. *)
Definition shown (v : option string) : string := Js.orElse v "undefined".

(** The handler: [create] is what creating the client and the message
    settles to. *)
Definition handle (verbose : bool) (autoReply : option string)
    (inherited : string -> option string) (reply : option Config.ReplyConfig)
    (exec : string -> list string -> Try string) (create : Try unit)
    (form : Form) : list Event :=
  let inboundLine :=
    if verbose then
      [ConsoleLog ("[INBOUND] " +:+ shown (formFrom form) +:+ " -> "
                     +:+ shown (formTo form) +:+ " ("
                     +:+ shown (formMessageSid form) +:+ "): "
                     +:+ shown (formBody form))]
    else [] in
  let '(replyText, lookups) :=
    if Js.truthy autoReply then (autoReply, [])
    else Config.getReplyFromConfig inherited reply exec
           (Template.mkContext (formBody form) (formFrom form) (formTo form)
              (formMessageSid form)) in
  let replying :=
    if Js.truthy replyText then
      CreateMessage (formTo form) (formFrom form) (Js.orElse replyText "") ::
        match create with
        | Ok _ =>
            if verbose
            then [ConsoleLog ("↩️  Auto-replied to " +:+ shown (formFrom form))]
            else []
        | Throws _ => [ConsoleError "Failed to auto-reply"]
        end
    else [] in
  inboundLine ++ (Lookup <$> lookups) ++ replying
    ++ [Respond "text/xml" "<Response></Response>"].

Definition isRespond (e : Event) : bool :=
  match e with Respond _ _ => true | _ => false end.
Definition isCreate (e : Event) : bool :=
  match e with CreateMessage _ _ _ => true | _ => false end.
Definition isLookup (e : Event) : bool :=
  match e with Lookup _ => true | _ => false end.

End Webhook.

(** ** One-off send over the session transport: [sendMessageWeb] *)

Module WebSend.
Import Err.

(** What the socket and [utils.ts] answer. *)
Record Env := mkEnv {
  toWhatsappJid : string -> string;          (* of [utils.ts] *)
  connection : Login.Connection;             (* [waitForWaConnection(sock)] *)
  presence : Try unit;                       (* [sock.sendPresenceUpdate] *)
  world : Media.World;
  send : Try (option string);                (* [sock.sendMessage]: [result?.key?.id] *)
  close : Try unit                           (* [sock.ws?.close()] *)
}.

(** [AnyMessageContent], the two shapes built here. *)
Inductive Payload :=
| Text (text : string)
| Image (image : Media.Buffer) (caption mimetype : option string).

Inductive Event :=
| CreateSocket (printQr : bool)
| LogInfo (line : string)
| LogVerbose (line : string)
| PresenceUpdate (state jid : string)
| Guard (e : Media.Effect)
| SendMessage (jid : string) (payload : Payload)
| WsClose.

Record Sent := mkSent {
  messageId : string;
  toJid : string
}.

(** The [try] block. *)
Definition attempt (env : Env) (to body : string) (mediaUrl : option string)
  : Try Sent * list Event :=
  let connecting := [LogInfo "🔌 Connecting to WhatsApp Web…"] in
  match connection env with
  | Login.Closed e => (Throws e, connecting)
  | Login.Opened =>
      let jid := toWhatsappJid env to in
      let composing :=
        PresenceUpdate "composing" jid ::
          match presence env with
          | Ok _ => []
          | Throws e => [LogVerbose ("Presence update skipped: " +:+ toString e)]
          end in
      let suffix := if Js.truthy mediaUrl then " (media)" else "" in
      let deliver payload guard :=
        let log := connecting ++ composing ++ guard ++
                   [LogInfo ("📤 Sending via web session -> " +:+ jid +:+ suffix);
                    SendMessage jid payload] in
        match send env with
        | Throws e => (Throws e, log)
        | Ok id =>
            let messageId := Js.orElse id "unknown" in
            (Ok (mkSent messageId jid),
             log ++ [LogInfo ("✅ Sent via web session. Message ID: " +:+ messageId
                                +:+ " -> " +:+ jid +:+ suffix)])
        end in
      if Js.truthy mediaUrl then
        let '(loaded, effects) :=
          Media.loadWebMedia (world env) (Js.orElse mediaUrl "") in
        match loaded with
        | Throws e => (Throws e, connecting ++ composing ++ (Guard <$> effects))
        | Ok media =>
            deliver (Image (Media.buffer media)
                           (if Js.truthy (Some body) then Some body else None)
                           (Media.loadedType media))
                    (Guard <$> effects)
        end
      else deliver (Text body) []
  end.

(** [sendMessageWeb]: the [try] block, then the [finally]. *)
Definition sendMessageWeb (env : Env) (to body : string) (mediaUrl : option string)
  : Try Sent * list Event :=
  let '(result, log) := attempt env to body mediaUrl in
  (result,
   CreateSocket false :: log ++ WsClose ::
     match close env with
     | Ok _ => []
     | Throws e => [LogVerbose ("Socket close failed: " +:+ toString e)]
     end).

Definition isSend (e : Event) : bool :=
  match e with SendMessage _ _ => true | _ => false end.
Definition isClose (e : Event) : bool :=
  match e with WsClose => true | _ => false end.
Definition isGuard (e : Event) : bool :=
  match e with Guard _ => true | _ => false end.

End WebSend.

(** ** The commands of [src/cli/program.ts] built on the relay, and
       [logWebSelfId] of [src/provider-web.ts] *)

Module Cli.
Import Err.

(** [readWebSelfId]: [creds] is what reading and parsing [creds.json]
    gives for [me.id], or what it threw. *)
Definition readWebSelfId (home : Fs.Path) (fs : gset Fs.Path)
    (creds : Try (option string)) (jidToE164 : string -> option string)
  : option string * option string :=
  if negb (Fs.access fs (Fs.credsPath home)) then (None, None)
  else
    match creds with
    | Throws _ => (None, None)
    | Ok jid =>
        (if Js.truthy jid then jidToE164 (Js.orElse jid "") else None, jid)
    end.

(** The line that [logWebSelfId] hands to [runtime.log]. *)
Definition logWebSelfId (home : Fs.Path) (fs : gset Fs.Path)
    (creds : Try (option string)) (jidToE164 : string -> option string)
    (includeProviderPrefix : bool) : string :=
  let '(e164, jid) := readWebSelfId home fs creds jidToE164 in
  let details :=
    if Js.truthy e164 || Js.truthy jid then
      Js.orElse e164 "unknown"
        +:+ (if Js.truthy jid then " (jid " +:+ Js.orElse jid "" +:+ ")" else "")
    else "unknown" in
  (if includeProviderPrefix then "Web Provider: " else "") +:+ details.

Inductive Event :=
| RuntimeError (line : string)         (* [defaultRuntime.error] *)
| RuntimeLog (line : string)           (* [defaultRuntime.log] *)
| LoginWeb (e : Login.Event)           (* what [loginWeb] did *)
| MonitorWebProvider                   (* the call of [monitorWebProvider] *)
| EnsureTwilioEnv
| LogTwilioFrom
| MonitorTwilio (intervalSeconds lookbackMinutes : Z).

(** The provider option read as a preference, when it is one of the
    three accepted words. *)
Definition parsePreference (providerPref : string) : option Selector.Preference :=
  if String.eqb providerPref "auto" then Some Selector.Auto
  else if String.eqb providerPref "web" then Some (Selector.Explicit Selector.web)
  else if String.eqb providerPref "twilio" then Some (Selector.Explicit Selector.twilio)
  else None.

(** What the relay command finds around it: the disk, the stored
    identity, whether [monitorWebProvider] returns or throws, and
    whether [ensureTwilioEnv] (of [env.ts]) returns ([None]) or ends the
    process with a code. *)
Record Around := mkAround {
  home : Fs.Path;
  disk : gset Fs.Path;
  creds : Try (option string);
  jidToE164 : string -> option string;
  webRelay : Try unit;
  twilioEnv : option Z
}.

(** The action of the [relay] command. [defaultRuntime.exit] ends the
    process. [interval] and [lookback] are the results of
    [Number.parseInt] ([None] for NaN). *)
Definition relayAction (a : Around) (providerPref : string)
    (interval lookback : option Z) : Dispatch.Completion * list Event :=
  let refuse line := (Dispatch.Exited 1, [RuntimeError line]) in
  match parsePreference providerPref with
  | None => refuse "--provider must be auto, web, or twilio"
  | Some pref =>
      match interval with
      | None => refuse "Interval must be a positive integer"
      | Some intervalSeconds =>
          if intervalSeconds <=? 0 then refuse "Interval must be a positive integer"
          else
            match lookback with
            | None => refuse "Lookback must be >= 0 minutes"
            | Some lookbackMinutes =>
                if lookbackMinutes <? 0 then refuse "Lookback must be >= 0 minutes"
                else
                  let twilioRelay before :=
                    match twilioEnv a with
                    | Some code => (Dispatch.Exited code, before ++ [EnsureTwilioEnv])
                    | None =>
                        (Dispatch.Returned,
                         before ++ [EnsureTwilioEnv; LogTwilioFrom;
                                    MonitorTwilio intervalSeconds lookbackMinutes])
                    end in
                  match (Selector.pickProvider (home a) (disk a) pref).1 with
                  | Selector.twilio => twilioRelay []
                  | Selector.web =>
                      let started :=
                        [RuntimeLog (logWebSelfId (home a) (disk a) (creds a)
                                       (jidToE164 a) true);
                         MonitorWebProvider] in
                      match webRelay a with
                      | Ok _ => (Dispatch.Returned, started)
                      | Throws err =>
                          if String.eqb providerPref "auto" then
                            twilioRelay
                              (started ++
                                 [RuntimeError
                                    "Web session unavailable; falling back to twilio."])
                          else
                            (Dispatch.Exited 1,
                             started ++
                               [RuntimeError ("Web relay failed: " +:+ toString err)])
                      end
                  end
            end
      end
  end.

(** The action of the [login] command. *)
Definition loginAction (home : Fs.Path) (fs : gset Fs.Path)
    (first retry : Login.Connection)
  : Dispatch.Completion * gset Fs.Path * list Event :=
  let run := Login.loginWeb home fs first retry in
  match Login.result run with
  | Ok _ => (Dispatch.Returned, Login.disk run, LoginWeb <$> Login.events run)
  | Throws err =>
      (Dispatch.Exited 1, Login.disk run,
       (LoginWeb <$> Login.events run)
         ++ [RuntimeError ("Web login failed: " +:+ toString err)])
  end.

Definition startsWeb (log : list Event) : bool :=
  existsb (fun e => match e with MonitorWebProvider => true | _ => false end) log.
Definition startsTwilio (log : list Event) : bool :=
  existsb (fun e => match e with MonitorTwilio _ _ => true | _ => false end) log.

End Cli.

(** ** Views of the traces used by the properties *)

Module View.

(** Entries of a given sort key, and lists in ascending key order. *)
Definition hasKey (k : Z) (m : Poll.MessageInstance) : bool := Poll.sortKey m =? k.
Definition ascending (l : list Poll.MessageInstance) : Prop :=
  StronglySorted (fun a b => Poll.sortKey a <= Poll.sortKey b) l.


Definition startsNonWord (s : string) : bool :=
  match s with
  | String c _ => negb (Template.isWordChar c)
  | EmptyString => true
  end.

(** What every message handed to the handler looks like: a sender, a
    body and a chat, the chat not a status or broadcast one. *)
Definition wellFormed (m : Inbox.WebInboundMessage) : Prop :=
  Inbox.inFrom m ≠ "" ∧ Inbox.inBody m ≠ "" ∧ Inbox.chatJid m ≠ ""
  ∧ Js.endsWith (Inbox.chatJid m) "@status" = false
  ∧ Js.endsWith (Inbox.chatJid m) "@broadcast" = false.

(** The read receipts of an inbox trace: chat and message id. *)
Definition receipts (log : list Inbox.Event) : list (string * string) :=
  omap (fun e => match e with
                 | Inbox.ReadMessages jid id _ => Some (jid, id)
                 | _ => None
                 end) log.

(** Events of the auto-reply handler. *)
Definition isGuard (e : Reply.Event) : bool :=
  match e with Reply.Guard _ => true | _ => false end.
Definition isSentMedia (e : Reply.Event) : bool :=
  match e with Reply.SentMediaInfo _ _ => true | _ => false end.

(** Sockets of a login trace, created and scheduled for closing. *)
Definition created (log : list Login.Event) : list Login.Sock :=
  omap (fun e => match e with Login.CreateSocket s _ => Some s | _ => None end) log.
Definition closedLater (log : list Login.Event) : list Login.Sock :=
  omap (fun e => match e with Login.CloseLater s _ => Some s | _ => None end) log.

End View.

(** ** More sample inputs *)

Module MoreSamples.
Import Err.


(** Template: the context of an inbound message. *)
Definition context : string -> option string :=
  Template.property (fun _ => None)
    (Template.mkContext (Some "hello") (Some "whatsapp:+15551234567")
       (Some "whatsapp:+15550000001") (Some "SM1")).

(** Relay command: a linked disk whose session relay throws, with the
    Twilio environment in place. *)
Definition unreachable : Cli.Around :=
  Cli.mkAround Samples.home {[ Fs.WA_WEB_AUTH_DIR Samples.home ]}
    (Throws (AnError "ENOENT: no such file or directory" None))
    (fun _ => None)
    (Throws (AnError "Connection closed" None))
    None.

(** Webhook: a configured command that prints only white space, and
    the form of an inbound message. *)
Definition blankCommand : Config.ReplyConfig :=
  Config.mkReplyConfig "command" None (Some ["echo"; "{{Body}}"]) None.
Definition printsBlank : string -> list string -> Try string :=
  fun _ _ => Ok "   ".
Definition form : Webhook.Form :=
  Webhook.mkForm (Some "whatsapp:+15551234567") (Some "whatsapp:+15550000001")
    (Some "hello") (Some "SM1").

End MoreSamples.
(** * Properties *)

(** ** Poll transport *)

Section PollFacts.
Import Poll.

Lemma foldr_max_snoc (l : list Z) (a b : Z) :
  foldr Z.max a (l ++ [b]) = Z.max (foldr Z.max a l) b.
Proof.
  induction l as [|x l IH]; simpl; [lia|]. rewrite IH. lia.
Qed.

Lemma foldr_max_ge (l : list Z) (a : Z) : a <= foldr Z.max a l.
Proof. induction l as [|x l IH]; simpl; lia. Qed.

Lemma foldr_max_app_ge (l k : list Z) (a : Z) :
  foldr Z.max a l <= foldr Z.max a (l ++ k).
Proof.
  induction l as [|x l IH]; simpl; [apply foldr_max_ge | lia].
Qed.

Lemma updateSince_max (s : Z) (d : option Z) :
  updateSince s d = foldr Z.max s (option_list d).
Proof.
  destruct d as [d|]; simpl; [|done].
  destruct (Z.gtb_spec d s); lia.
Qed.

Lemma accepted_snoc (log : list Event) (e : Event) :
  accepted (log ++ [e]) =
  accepted log ++ match e with Emitted m => [m] | PollError => [] end.
Proof. unfold accepted. rewrite omap_app. by destruct e. Qed.

Lemma timestamps_snoc (l : list MessageInstance) (m : MessageInstance) :
  timestamps (l ++ [m]) = timestamps l ++ option_list (dateCreated m).
Proof. unfold timestamps. rewrite omap_app. simpl. by destruct (dateCreated m). Qed.

Lemma handleEntry_inv since0 acc m :
  pollInv since0 acc → pollInv since0 (handleEntry acc m).
Proof.
  destruct acc as [st log]. intros (Hseen & Hnd & Hsince).
  unfold handleEntry. case_decide as Hin; [done|].
  simpl in *. unfold pollInv; simpl.
  rewrite accepted_snoc, fmap_app, timestamps_snoc. simpl.
  split_and!.
  - intros x [Hx | Hx%list_elem_of_singleton]%elem_of_app.
    + specialize (Hseen x Hx). set_solver.
    + subst. set_solver.
  - apply NoDup_app. split_and!; [done| |apply NoDup_singleton].
    intros s Hs Hs'%list_elem_of_singleton. subst s.
    apply list_elem_of_fmap in Hs as (x & Heq & Hx).
    apply Hin. rewrite Heq. by apply Hseen.
  - rewrite updateSince_max, Hsince.
    destruct (dateCreated m) as [d|]; simpl.
    + rewrite foldr_max_snoc. lia.
    + by rewrite app_nil_r.
Qed.

Lemma fold_handleEntry_inv since0 l acc :
  pollInv since0 acc → pollInv since0 (fold_left handleEntry l acc).
Proof.
  revert acc. induction l as [|m l IH]; intros acc H; simpl; [done|].
  by apply IH, handleEntry_inv.
Qed.

Lemma pollOnce_inv since0 acc f :
  pollInv since0 acc → pollInv since0 (pollOnce acc f).
Proof.
  intros H. destruct f as [ms|]; simpl.
  - by apply fold_handleEntry_inv.
  - destruct acc as [st log], H as (H1 & H2 & H3).
    unfold pollInv; simpl in *. rewrite accepted_snoc, app_nil_r. done.
Qed.

Lemma monitorFrom_inv since0 fs acc :
  pollInv since0 acc → pollInv since0 (monitorFrom acc fs).
Proof.
  revert acc. induction fs as [|f fs IH]; intros acc H; simpl; [done|].
  by apply IH, pollOnce_inv.
Qed.

Lemma monitor_inv since0 fs : pollInv since0 (monitor since0 fs).
Proof.
  apply monitorFrom_inv. unfold pollInv; simpl.
  split_and!; [set_solver | constructor | done].
Qed.

(** The trace only grows: a longer run extends the trace of a shorter. *)
Lemma handleEntry_extends acc m :
  ∃ k, (handleEntry acc m).2 = acc.2 ++ k.
Proof.
  destruct acc as [st log]. unfold handleEntry.
  case_decide; simpl; [exists []; by rewrite app_nil_r | by eexists].
Qed.

Lemma fold_handleEntry_extends l acc :
  ∃ k, (fold_left handleEntry l acc).2 = acc.2 ++ k.
Proof.
  revert acc. induction l as [|m l IH]; intros acc; simpl.
  - exists []. by rewrite app_nil_r.
  - destruct (IH (handleEntry acc m)) as [k Hk].
    destruct (handleEntry_extends acc m) as [k' Hk'].
    exists (k' ++ k). by rewrite Hk, Hk', app_assoc.
Qed.

Lemma monitorFrom_extends fs acc :
  ∃ k, (monitorFrom acc fs).2 = acc.2 ++ k.
Proof.
  revert acc. induction fs as [|f fs IH]; intros acc; simpl.
  - exists []. by rewrite app_nil_r.
  - destruct (IH (pollOnce acc f)) as [k Hk].
    assert (∃ k', (pollOnce acc f).2 = acc.2 ++ k') as [k' Hk'].
    { destruct f; simpl; [apply fold_handleEntry_extends | by eexists]. }
    exists (k' ++ k). by rewrite Hk, Hk', app_assoc.
Qed.

Lemma monitor_app since0 fs more :
  monitor since0 (fs ++ more) = monitorFrom (monitor since0 fs) more.
Proof. unfold monitor, monitorFrom. by rewrite fold_left_app. Qed.

End PollFacts.

(** *** Nothing inbound is lost: every fetched inbound entry is emitted *)

Section PollCompleteness.
Import Poll.

Lemma insertSorted_elem (m x : MessageInstance) (l : list MessageInstance) :
  x ∈ insertSorted m l ↔ x = m ∨ x ∈ l.
Proof.
  induction l as [|y l IH]; simpl.
  - rewrite list_elem_of_singleton. set_solver.
  - destruct (sortKey m <=? sortKey y); rewrite !elem_of_cons, ?IH; tauto.
Qed.

Lemma sortByCreated_elem (x : MessageInstance) (l : list MessageInstance) :
  x ∈ sortByCreated l ↔ x ∈ l.
Proof.
  induction l as [|y l IH]; simpl; [done|].
  rewrite insertSorted_elem, elem_of_cons, IH. tauto.
Qed.

Lemma handleEntry_seen acc m :
  seenIsEmitted acc →
  seenIsEmitted (handleEntry acc m) ∧ sid m ∈ seen (handleEntry acc m).1
  ∧ seen acc.1 ⊆ seen (handleEntry acc m).1.
Proof.
  destruct acc as [st log]. unfold seenIsEmitted, handleEntry. intros H.
  case_decide as Hin; simpl in *; [done|].
  split_and!; [|set_solver..].
  intros s. rewrite accepted_snoc, fmap_app, elem_of_app, <- H. simpl.
  rewrite list_elem_of_singleton. set_solver.
Qed.

Lemma fold_handleEntry_seen l acc :
  seenIsEmitted acc →
  seenIsEmitted (fold_left handleEntry l acc)
  ∧ (∀ m, m ∈ l → sid m ∈ seen (fold_left handleEntry l acc).1)
  ∧ seen acc.1 ⊆ seen (fold_left handleEntry l acc).1.
Proof.
  revert acc. induction l as [|x l IH]; intros acc H; simpl.
  - split_and!; [done | intros m Hm; by apply elem_of_nil in Hm | done].
  - destruct (handleEntry_seen acc x H) as (H1 & H2 & H3).
    destruct (IH _ H1) as (H4 & H5 & H6).
    split_and!; [done| |set_solver].
    intros m [-> | Hm]%elem_of_cons; [set_solver | by apply H5].
Qed.

Lemma pollOnce_seen acc f :
  seenIsEmitted acc →
  seenIsEmitted (pollOnce acc f)
  ∧ (∀ ms m, f = Some ms → m ∈ ms → isInbound m = true →
             sid m ∈ seen (pollOnce acc f).1)
  ∧ seen acc.1 ⊆ seen (pollOnce acc f).1.
Proof.
  intros H. destruct f as [ms|]; simpl.
  - destruct (fold_handleEntry_seen
                (sortByCreated (List.filter isInbound ms)) acc H) as (H1 & H2 & H3).
    split_and!; [done| |done].
    intros ? m [= <-] Hm Hin. apply H2.
    apply sortByCreated_elem, list_elem_of_In, filter_In.
    split; [by apply list_elem_of_In | done].
  - destruct acc as [st log]. unfold seenIsEmitted in *; simpl in *.
    rewrite accepted_snoc, app_nil_r. done.
Qed.

Lemma monitorFrom_seen fs acc :
  seenIsEmitted acc →
  seenIsEmitted (monitorFrom acc fs)
  ∧ (∀ ms m, Some ms ∈ fs → m ∈ ms → isInbound m = true →
             sid m ∈ seen (monitorFrom acc fs).1)
  ∧ seen acc.1 ⊆ seen (monitorFrom acc fs).1.
Proof.
  revert acc. induction fs as [|f fs IH]; intros acc H; simpl.
  - split_and!; [done | intros ms m Hm; by apply elem_of_nil in Hm | done].
  - destruct (pollOnce_seen acc f H) as (H1 & H2 & H3).
    destruct (IH _ H1) as (H4 & H5 & H6).
    split_and!; [done| |set_solver].
    intros ms m [<- | Hm]%elem_of_cons Hin Hinb; [|by eapply H5].
    apply H6. by eapply H2.
Qed.

(** Every inbound entry that some fetch returned is among the emitted. *)
Lemma poll_inbound_emitted since0 fs ms m :
  Some ms ∈ fs → m ∈ ms → isInbound m = true →
  sid m ∈ sid <$> accepted (monitor since0 fs).2.
Proof.
  intros Hms Hm Hin.
  assert (seenIsEmitted (mkState since0 ∅, [])) as H0.
  { intros s; simpl. set_solver. }
  destruct (monitorFrom_seen fs _ H0) as (H1 & H2 & _).
  apply H1. by eapply H2.
Qed.
End PollCompleteness.

(** C2, as the code has it: after any number of iterations the
    watermark [since] is the largest of the initial lookback value and
    the creation timestamps of all accepted entries (hence the initial
    value when nothing was accepted, and never below it), and running
    more iterations, whatever the fetches return, never lowers it. *)
Theorem poll_watermark_max_with_lookback
    (since0 : Z) (fetches more : list (option (list Poll.MessageInstance))) :
  let run := Poll.monitor since0 fetches in
  Poll.since run.1
    = foldr Z.max since0 (Poll.timestamps (Poll.accepted run.2))
  ∧ since0 <= Poll.since run.1
  ∧ Poll.since run.1 <= Poll.since (Poll.monitor since0 (fetches ++ more)).1.
Proof.
  intros run.
  destruct (monitor_inv since0 fetches) as (_ & _ & Hs). fold run in Hs.
  split_and!.
  - done.
  - rewrite Hs. apply foldr_max_ge.
  - destruct (monitor_inv since0 (fetches ++ more)) as (_ & _ & Hs').
    rewrite Hs', Hs. rewrite monitor_app. fold run.
    destruct (monitorFrom_extends more run) as [k ->].
    unfold Poll.accepted, Poll.timestamps.
    rewrite !omap_app. apply foldr_max_app_ge.
Qed.

(** C2 as stated fails: an accepted entry older than the initial
    lookback leaves the watermark at the lookback value, which is then
    not the maximum creation timestamp of the accepted entries. *)
Lemma poll_watermark_not_max_of_accepted :
  ∃ (since0 : Z) (fetches : list (option (list Poll.MessageInstance))) (t : Z),
    let run := Poll.monitor since0 fetches in
    Poll.accepted run.2 ≠ []
    ∧ Poll.maxTimestamp (Poll.timestamps (Poll.accepted run.2)) = Some t
    ∧ Poll.since run.1 ≠ t.
Proof.
  exists 100,
    [Some [Poll.mkMessage "SM1" "inbound" (Some 50) (Some "whatsapp:+15550001")
             "whatsapp:+15550002" (Some "hi")]], 50.
  vm_compute. split_and!; [discriminate | reflexivity | discriminate].
Qed.

(** ** Session transport inbox *)

Section InboxFacts.
Import Inbox.
Variable env : Env.

Lemma dispatched_app (l k : list Event) :
  dispatched (l ++ k) = dispatched l ++ dispatched k.
Proof. apply omap_app. Qed.

(** Fetching the attachment only logs. *)
Lemma inboundMedia_quiet (msg : WAMessage) :
  dispatched (inboundMedia env msg).2 = [].
Proof.
  unfold inboundMedia, downloadInboundMedia.
  repeat case_match; simplify_eq/=; done.
Qed.

(** One turn of the loop: the trace grows by [new]; either nothing is
    dispatched, or one message with the event's id, which was not in
    [seen] before and is afterwards. *)
Lemma processMessage_step (seen : gset string) (log : list Event) (msg : WAMessage) :
  ∃ seen' new,
    processMessage env (seen, log) msg = (seen', log ++ new)
    ∧ seen ⊆ seen'
    ∧ (dispatched new = []
       ∨ ∃ m, dispatched new = [m]
              ∧ inId m = (key msg ≫= id)
              ∧ ∀ i, dedupId m = Some i → (i ∉ seen) ∧ i ∈ seen').
Proof.
  unfold processMessage.
  set (mid := key msg ≫= id).
  destruct (Js.truthy mid && bool_decide (Js.orElse mid "" ∈ seen)) eqn:Hdup.
  { exists seen, []. rewrite app_nil_r. split_and!; [done|done|by left]. }
  set (seen1 := if Js.truthy mid then {[Js.orElse mid ""]} ∪ seen else seen).
  assert (seen ⊆ seen1) as Hsub.
  { unfold seen1. destruct (Js.truthy mid); set_solver. }
  assert (∀ m i, inId m = mid → dedupId m = Some i → (i ∉ seen) ∧ i ∈ seen1) as Hfresh.
  { intros m i Hm Hi. unfold dedupId in Hi. rewrite Hm in Hi.
    destruct (Js.truthy mid) eqn:Ht; [|done].
    simpl in Hdup. apply bool_decide_eq_false in Hdup.
    unfold seen1. rewrite Hi in *. simpl in *. set_solver. }
  pose proof (inboundMedia_quiet msg) as Hquiet.
  destruct (inboundMedia env msg) as [[mediaPath mediaType] mlog].
  simpl in Hquiet.
  unfold dispatched in *.
  repeat case_match; simplify_eq/=; rewrite <- ?app_assoc; simpl.
  all: try (by (exists seen1, []; rewrite app_nil_r; split_and!; [..|left])).
  all: (eexists seen1, _; split_and!; [reflexivity | done |]);
         simpl; rewrite ?omap_app, ?Hquiet; simpl;
         first [ by left
               | right; eexists; split_and!;
                 [ reflexivity | done
                 | intros i Hi; eapply Hfresh; [|exact Hi]; done ] ].
Qed.

Lemma processMessage_inv acc msg :
  inboxInv acc → inboxInv (processMessage env acc msg).
Proof.
  destruct acc as [seen log]. intros [Hin Hnd].
  destruct (processMessage_step seen log msg) as (seen' & new & -> & Hsub & Hnew).
  unfold inboxInv in *; simpl in *.
  rewrite dispatched_app, omap_app.
  destruct Hnew as [-> | (m & -> & Hid & Hfresh)]; simpl.
  - rewrite app_nil_r. split; [|done]. intros i Hi. set_solver.
  - destruct (dedupId m) as [i|] eqn:Hm; simpl.
    + destruct (Hfresh i eq_refl) as [Hout Hnow]. split.
      * intros j Hj. apply elem_of_app in Hj as [Hj | Hj].
        -- specialize (Hin j Hj). set_solver.
        -- apply list_elem_of_singleton in Hj. by subst.
      * apply NoDup_app. split_and!; [done| |apply NoDup_singleton].
        intros j Hj Hj'. apply list_elem_of_singleton in Hj'. subst j.
        by apply Hout, Hin.
    + rewrite app_nil_r. split; [|done]. intros i Hi. set_solver.
Qed.

Lemma handleUpsert_inv acc u :
  inboxInv acc → inboxInv (handleUpsert env acc u).
Proof.
  unfold handleUpsert. destruct (negb _); [done|].
  generalize (messages u). intros l. revert acc.
  induction l as [|msg l IH]; intros acc Hacc; simpl; [done|].
  by apply IH, processMessage_inv.
Qed.

Lemma monitorWebInbox_inv upserts : inboxInv (monitorWebInbox env upserts).
Proof.
  unfold monitorWebInbox.
  assert (inboxInv (∅, [])) as H0.
  { split; simpl; [set_solver | constructor]. }
  revert H0. generalize (∅ : gset string, @nil Event).
  induction upserts as [|u us IH]; intros acc H; simpl; [done|].
  by apply IH, handleUpsert_inv.
Qed.


End InboxFacts.

Section InboxRuns.
Import Inbox.
Variable env : Env.



End InboxRuns.

(** C1: over any run of one transport instance the inbound pipeline is
    entered at most once per message id. Poll transport: the sids of the
    emitted entries are pairwise distinct, whatever the fetches return.
    Session transport: the ids of the messages handed to [onMessage]
    (the ids that the code's [if (id)] test takes as present) are
    pairwise distinct, whatever the event stream and the environment. *)
Theorem inbound_at_most_once_per_id :
  (∀ (since0 : Z) (fetches : list (option (list Poll.MessageInstance))),
     NoDup (Poll.sid <$> Poll.accepted (Poll.monitor since0 fetches).2))
  ∧ (∀ (env : Inbox.Env) (upserts : list Inbox.Upsert),
       NoDup (omap Inbox.dedupId
                (Inbox.dispatched (Inbox.monitorWebInbox env upserts).2))).
Proof.
  split.
  - intros since0 fetches. by destruct (monitor_inv since0 fetches) as (_ & H & _).
  - intros env upserts. by destruct (monitorWebInbox_inv env upserts) as [_ H].
Qed.


(** ** Outbound dispatcher *)

Section DispatchFacts.
Import Dispatch.

Lemma success_not_failure (s : string) :
  s ∈ successTerminalStatuses → s ∉ failureTerminalStatuses.
Proof.
  unfold successTerminalStatuses, failureTerminalStatuses.
  rewrite !elem_of_union, !elem_of_singleton.
  intros [-> | ->] [[|]|]; discriminate.
Qed.

Lemma delivered_not_timeout (s : string) : deliveredLine s ≠ timedOutLine.
Proof. unfold deliveredLine, timedOutLine. simpl. intros H. inversion H. Qed.

Lemma isTerminal_false (s : string) :
  s ∉ successTerminalStatuses → s ∉ failureTerminalStatuses →
  isTerminal s = false.
Proof.
  intros H1 H2. unfold isTerminal.
  by rewrite !bool_decide_eq_false_2.
Qed.

Lemma isTerminal_success (s : string) :
  s ∈ successTerminalStatuses → isTerminal s = true.
Proof. intros H. unfold isTerminal. by rewrite bool_decide_eq_true_2. Qed.

Lemma isTerminal_failure (s : string) :
  s ∈ failureTerminalStatuses → isTerminal s = true.
Proof.
  intros H. unfold isTerminal.
  rewrite (bool_decide_eq_true_2 (s ∈ failureTerminalStatuses)); [|done].
  apply orb_true_r.
Qed.

(** With a positive interval the loop ends within its fuel, and its
    outcome meets [waitSpec]. *)
Lemma waitLoop_spec (deadline pollSeconds : Z) (rounds : nat → Round) :
  0 < pollSeconds →
  ∀ (fuel i : nat) (now : Z),
    deadline - now <= Z.of_nat fuel →
    ∃ o, waitLoop fuel deadline pollSeconds rounds i now = Some o
         ∧ waitSpec deadline rounds i o.
Proof.
  intros Hpoll fuel. induction fuel as [|fuel IH]; intros i now Hfuel; simpl.
  - destruct (Z.ltb_spec now deadline); [lia|].
    eexists. split; [done|]. unfold waitSpec; simpl. split_and!; [done..|lia].
  - destruct (Z.ltb_spec now deadline) as [Hlt|Hge].
    2:{ eexists. split; [done|]. unfold waitSpec; simpl. split_and!; [done..|lia]. }
    fold (statusAt rounds i). set (st := statusAt rounds i).
    case_bool_decide as Hs.
    { eexists. split; [done|]. unfold waitSpec; simpl.
      rewrite (isTerminal_success st Hs). simpl.
      replace (i + 1 - 1)%nat with i by lia.
      split_and!; [done|done|]. left. done. }
    case_bool_decide as Hf.
    { eexists. split; [done|]. unfold waitSpec; simpl.
      rewrite (isTerminal_failure st Hf). simpl.
      replace (i + 1 - 1)%nat with i by lia.
      split_and!; [done|done|]. right. done. }
    destruct (IH (S i)
                (now + Z.of_N (latency (rounds i)) + pollSeconds * 1000
                 + Z.of_N (overslept (rounds i)))) as (o & -> & Hobs & Hrep).
    { lia. }
    eexists. split; [done|]. unfold waitSpec; simpl.
    rewrite (isTerminal_false st Hs Hf).
    set (obs := observed (events o)) in *.
    split.
    { fold st. f_equal. exact Hobs. }
    destruct (firstTerminal obs) as [s|] eqn:Hterm.
    + destruct Hrep as (Hlast & Hrep). split.
      { rewrite last_cons, Hlast. done. }
      replace (i + S (length obs) - 1)%nat with (S i + length obs - 1)%nat.
      2:{ destruct obs; [done|simpl; lia]. }
      destruct Hrep as [(? & ? & Hl) | (? & ? & Hl)]; [left|right];
        (split_and!; [done|done|]); rewrite !last_cons, Hl; done.
    + destruct Hrep as (? & Hl & ?). split_and!; [done| |done].
      rewrite !last_cons, Hl. done.
Qed.
End DispatchFacts.

Section DispatchRuns.
Import Dispatch.

(** Before the deadline the loop fetches at least once. *)
Lemma waitLoop_polls (fuel : nat) (deadline pollSeconds : Z)
    (rounds : nat → Round) (i : nat) (now : Z) (o : Outcome) :
  now < deadline →
  waitLoop fuel deadline pollSeconds rounds i now = Some o →
  observed (events o) ≠ [].
Proof.
  intros Hlt. destruct fuel as [|fuel]; simpl;
    destruct (Z.ltb_spec now deadline); try lia; [done|].
  repeat case_bool_decide; intros Ho; simplify_eq/=; try done.
  destruct (waitLoop _ _ _ _ _ _); simplify_eq/=. done.
Qed.
End DispatchRuns.

(** C3: with positive wait and poll interval, [waitForFinalStatus]
    returns an outcome for every sequence of statuses the fetches show;
    the statuses it observed are the first ones of that sequence, at
    least one; it reports success exactly when the first terminal status
    observed is delivered or read; it reports failure, exiting with code
    1 and printing that message's error code and message, exactly when
    the first terminal status observed is failed, undelivered or
    canceled; and it returns normally with the "may still be in flight"
    line exactly when no terminal status was observed, which happens
    only once the deadline has passed. *)
Theorem wait_reports_first_terminal_status
    (now timeoutSeconds pollSeconds : Z) (rounds : nat → Dispatch.Round)
    (Hwait : 0 < timeoutSeconds) (Hpoll : 0 < pollSeconds) :
  ∃ o, Dispatch.waitForFinalStatus now timeoutSeconds pollSeconds rounds = Some o
    ∧ let obs := Dispatch.observed (Dispatch.events o) in
      obs = Dispatch.statusAt rounds <$> seq 0 (length obs)
      ∧ obs ≠ []
      ∧ (Dispatch.reportsSuccess o
         ↔ ∃ s, Dispatch.firstTerminal obs = Some s
                ∧ s ∈ Dispatch.successTerminalStatuses)
      ∧ (Dispatch.reportsFailure o
         ↔ ∃ s, Dispatch.firstTerminal obs = Some s
                ∧ s ∈ Dispatch.failureTerminalStatuses)
      ∧ (Dispatch.reportsFailure o →
         ∃ s, last obs = Some s
              ∧ last (Dispatch.events o)
                = Some (Dispatch.ConsoleError
                          (Dispatch.failedLine s
                             (Dispatch.fetched (rounds (length obs - 1)%nat)))))
      ∧ (Dispatch.reportsTimeout o ↔ Dispatch.firstTerminal obs = None)
      ∧ (Dispatch.reportsTimeout o → now + timeoutSeconds * 1000 <= Dispatch.clock o).
Proof.
  unfold Dispatch.waitForFinalStatus.
  destruct (waitLoop_spec (now + timeoutSeconds * 1000) pollSeconds rounds Hpoll
              (Z.to_nat (timeoutSeconds * 1000)) 0%nat now) as (o & Ho & Hobs & Hrep).
  { lia. }
  exists o. split; [done|]. cbv zeta.
  set (obs := Dispatch.observed (Dispatch.events o)) in *.
  assert (obs ≠ []) as Hne.
  { eapply waitLoop_polls; [|exact Ho]. lia. }
  unfold Dispatch.reportsSuccess, Dispatch.reportsFailure, Dispatch.reportsTimeout.
  destruct (Dispatch.firstTerminal obs) as [s|] eqn:Hterm.
  - destruct Hrep as (Hlast & [(Hs & Hc & Hl) | (Hs & Hc & Hl)]).
    + pose proof (success_not_failure s Hs) as Hnf.
      split_and!; try done.
      * split; [intros _|intros _; split]; eauto.
      * split; [intros [Hc' _]; congruence | intros (s' & [= <-] & ?); done].
      * intros [Hc' _]; congruence.
      * split; [|done]. intros [_ Hl'].
        exfalso. apply (delivered_not_timeout s). congruence.
      * intros [_ Hl']. exfalso. apply (delivered_not_timeout s). congruence.
    + assert (s ∉ Dispatch.successTerminalStatuses) as Hns.
      { intros Hs'. by apply (success_not_failure s Hs'). }
      split_and!; try done.
      * split; [intros [Hc' _]; congruence | intros (s' & [= <-] & ?); done].
      * split; [intros _|intros _; split]; eauto.
      * intros _. exists s. split; [done|]. by rewrite Hl.
      * split; [intros [Hc' _]; congruence | done].
      * intros [Hc' _]; congruence.
  - destruct Hrep as (Hc & Hl & Hclock).
    split_and!; try done.
    + split; [|intros (s & ? & _); done].
      intros (_ & s & Hl'). exfalso. apply (delivered_not_timeout s). congruence.
    + split; [intros [Hc' _]; congruence | intros (s & ? & _); done].
    + intros [Hc' _]; congruence.
Qed.

(** ** Media guard *)

Section MediaFacts.
Import Err Media.

Lemma max_web_bytes_megabytes : Js.showZ (MAX_WEB_BYTES / (1024 * 1024)) = "16".
Proof. reflexivity. Qed.

Lemma tooLarge_message (n : Z) :
  tooLarge n
  = AnError ("Media exceeds 16MB limit (got " +:+ megabytesFixed1 n +:+ "MB)") None.
Proof. reflexivity. Qed.
End MediaFacts.

(** C4: for every world and media reference, [loadWebMedia] never
    returns a buffer longer than the cap; when the payload it obtains
    has exactly the cap's length it is returned; when it has one byte
    more, or more, the call throws an error whose message carries the
    observed size (in MB to one decimal); and a remote fetch whose
    response is not ok or has no body throws "Failed to fetch media"
    with the HTTP status and never reads the body: the body is read only
    after a response that is ok and has one. *)
Theorem media_guard_enforces_cap (w : Media.World) (mediaUrl : string) :
  let url := Media.stripFileScheme mediaUrl in
  let run := Media.loadWebMedia w mediaUrl in
  (∀ m, run.1 = Err.Ok m →
        Media.payload w mediaUrl = Some (Media.buffer m)
        ∧ Media.bufLength (Media.buffer m) <= Media.MAX_WEB_BYTES)
  ∧ (∀ b, Media.payload w mediaUrl = Some b →
          Media.bufLength b = Media.MAX_WEB_BYTES →
          ∃ ct, run.1 = Err.Ok (Media.mkLoaded b ct))
  ∧ (∀ b, Media.payload w mediaUrl = Some b →
          Media.MAX_WEB_BYTES + 1 <= Media.bufLength b →
          run.1 = Err.Throws
                    (Err.AnError
                       ("Media exceeds 16MB limit (got "
                          +:+ Media.megabytesFixed1 (Media.bufLength b) +:+ "MB)")
                       None))
  ∧ (∀ res, Media.isHttpUrl url = true →
            Media.fetch w url = Err.Ok res →
            Media.ok res && Js.present (Media.body res) = false →
            run = (Err.Throws (Media.fetchFailed res), [Media.Fetch url]))
  ∧ (Media.ArrayBuffer ∈ run.2 →
     ∃ res b, Media.fetch w url = Err.Ok res
              ∧ Media.ok res = true ∧ Media.body res = Some b
              ∧ run.2 = [Media.Fetch url; Media.ArrayBuffer]).
Proof.
  intros url run. unfold run, Media.loadWebMedia, Media.payload. fold url.
  destruct (Media.isHttpUrl url);
    [ destruct (Media.fetch w url) as [res|e];
      [ destruct (Media.ok res) eqn:Hok, (Media.body res) as [array|] eqn:Hbody;
        [ destruct (Z.gtb_spec (Media.bufLength array) Media.MAX_WEB_BYTES) | .. ]
      | ]
    | destruct (Media.readFile w url) as [data|e];
      [ destruct (Z.gtb_spec (Media.bufLength data) Media.MAX_WEB_BYTES) | ] ];
    simpl; split_and!; intros; simplify_eq/=;
    try done; try lia; eauto 10;
    try (match goal with
         | H : Media.ok _ && _ = false |- _ => rewrite Hok, Hbody in H; done
         end);
    repeat match goal with
           | H : _ ∈ _ :: _ |- _ => apply elem_of_cons in H as [?|H]; [done|]
           | H : _ ∈ [] |- _ => by apply elem_of_nil in H
           end.
Qed.

(** ** Login *)

Section LoginFacts.
Import Err Login.

Lemma rmRecursive_spec (dir p : Fs.Path) (fs : gset Fs.Path) :
  p ∈ Fs.rmRecursive dir fs ↔ p ∈ fs ∧ ¬ dir `prefix_of` p.
Proof. unfold Fs.rmRecursive. rewrite elem_of_filter. tauto. Qed.


Lemma ensureDir_twice (dir : Fs.Path) (fs : gset Fs.Path) :
  Fs.ensureDir dir (Fs.ensureDir dir fs) = Fs.ensureDir dir fs.
Proof. unfold Fs.ensureDir. set_solver. Qed.

End LoginFacts.

(** C5, as the code has it: when the first connection of a login closes
    with code 515 before opening, the login creates exactly one more
    socket, without the pairing prompt (the only prompting socket is the
    first one); if the retry opens, the login resolves after telling the
    caller the session is linked; if the retry closes too, the login
    rejects with the retry's close reason as it is, and the credential
    directory is left in place. *)
Theorem login_restart_retries_once
    (home : Fs.Path) (fs : gset Fs.Path) (e1 : Err.Thrown)
    (Hcode : Login.closeCode e1 = Some Login.restartRequired) :
  (∀ retry,
     let run := Login.loginWeb home fs (Login.Closed e1) retry in
     Login.reconnects (Login.events run) = 1%nat
     ∧ Login.prompts (Login.events run) = 1%nat
     ∧ Login.CreateSocket Login.RetrySock false ∈ Login.events run
     ∧ Login.removesDir (Login.events run) = false)
  ∧ (let run := Login.loginWeb home fs (Login.Closed e1) Login.Opened in
     Login.result run = Err.Ok tt
     ∧ last (List.filter
               (fun e => match e with Login.ConsoleLog _ => true | _ => false end)
               (Login.events run))
       = Some (Login.ConsoleLog Login.linkedAfterRestartLine))
  ∧ (∀ e2,
       let run := Login.loginWeb home fs (Login.Closed e1) (Login.Closed e2) in
       Login.result run = Err.Throws e2).
Proof.
  unfold Login.loginWeb. rewrite Hcode.
  rewrite bool_decide_eq_true_2 by done.
  split_and!; try done.
  intros [|e2]; simpl; split_and!; try reflexivity;
    rewrite list_elem_of_In; simpl; auto 10.
Qed.

(** C5 as stated fails in its last part: with a first close of code 515
    and a retry that closes with code 408, the login rejects with the
    retry's reason, which is neither the first close reason nor an error
    made from it. *)
Lemma login_restart_surfaces_retry_error :
  ∃ (e1 e2 : Err.Thrown),
    let run := Login.loginWeb ["home"; "u"] ∅ (Login.Closed e1) (Login.Closed e2) in
    Login.closeCode e1 = Some Login.restartRequired
    ∧ Login.result run = Err.Throws e2
    ∧ Login.result run ≠ Err.Throws e1
    ∧ Login.result run ≠ Err.Throws (Err.AnError (Err.formatError e1) None).
Proof.
  exists (Err.AnObject (Some 515) None None None),
         (Err.AnObject (Some 408) None None None).
  vm_compute. split_and!; [reflexivity | reflexivity | discriminate | discriminate].
Qed.


(** ** Provider selection *)



(** ** Text extraction *)


(** ** Auto-reply handler *)

Section ReplyFacts.
Import Err Reply.

Lemma no_reply_in_guard (l : list Media.Effect) :
  List.filter isReply (Guard <$> l) = [].
Proof. induction l as [|x l IH]; simpl; done. Qed.

(** The media reply fails when the guard throws or the send does. *)
Lemma sendMediaReply_throws env from r url e :
  (Media.loadWebMedia (world env) url).1 = Throws e
  ∨ (∃ m, (Media.loadWebMedia (world env) url).1 = Ok m ∧ sendMedia env = Throws e) →
  ∃ log, sendMediaReply env from r url = (Throws e, log)
         ∧ List.filter isReply log = [].
Proof.
  unfold sendMediaReply.
  destruct (Media.loadWebMedia (world env) url) as [loaded effects]; simpl.
  intros [-> | (m & -> & ->)]; eexists; (split; [reflexivity|]).
  - apply no_reply_in_guard.
  - rewrite List.filter_app, no_reply_in_guard. done.
Qed.
End ReplyFacts.

(** C6: when the resolver returned a media URL and the media guard's
    fetch throws, or the fetch succeeds and the media send throws, the
    handler prints the failure, calls [reply] with the text alone when
    the resolver also returned a text and sends no reply otherwise, and
    in both cases its promise resolves: nothing is thrown to the caller
    of the handler. *)
Theorem media_failure_falls_back_to_text
    (env : Reply.Env) (msg : Inbox.WebInboundMessage)
    (r : Reply.ReplyResult) (e : Err.Thrown)
    (Hres : Reply.resolver env = Err.Ok (Some r))
    (Hurl : Js.truthy (Reply.mediaUrl r) = true)
    (Hfail :
       let loaded :=
         (Media.loadWebMedia (Reply.world env) (Js.orElse (Reply.mediaUrl r) "")).1 in
       loaded = Err.Throws e
       ∨ (∃ m, loaded = Err.Ok m ∧ Reply.sendMedia env = Err.Throws e)) :
  let run := Reply.onMessage env msg in
  run.1 = Err.Ok tt
  ∧ Reply.ConsoleError
      ("Failed sending web media to " +:+ Inbox.inFrom msg +:+ ": " +:+ Err.toString e)
    ∈ run.2
  ∧ List.filter Reply.isReply run.2
    = (if Js.truthy (Reply.text r)
       then [Reply.ReplyText (Js.orElse (Reply.text r) "")]
       else []).
Proof.
  intros run. unfold run, Reply.onMessage. rewrite Hres, Hurl.
  rewrite andb_false_r.
  destruct (sendMediaReply_throws env (Inbox.inFrom msg) r _ e Hfail)
    as (log & -> & Hlog).
  destruct (Js.truthy (Reply.text r)); [destruct (Reply.reply env)|]; simpl;
    (split_and!;
     [ done
     | rewrite ?elem_of_cons, ?elem_of_app, ?elem_of_cons; auto 10
     | rewrite ?List.filter_app; simpl; rewrite ?List.filter_app, ?Hlog; done ]).
Qed.

(** * The properties at concrete inputs *)

Section Scenarios.
Import Samples.

(** Scenario C: an entry listed twice in one polling window is emitted
    once; the older entry comes first; outbound entries are dropped. *)
Example poll_duplicate_emitted_once :
  Poll.accepted (Poll.monitor 1700000000000 [Some [wamidA; outbound; wamidB; wamidA]]).2
  = [wamidB; wamidA].
Proof. vm_compute. reflexivity. Qed.

(** The sort is stable: entries created at the same time keep the
    order of the fetch. *)
Example poll_sort_is_stable :
  Poll.sid <$> Poll.sortByCreated
    [Poll.mkMessage "c" "inbound" (Some 7) None "me" None;
     Poll.mkMessage "a" "inbound" (Some 5) None "me" None;
     Poll.mkMessage "b" "inbound" (Some 5) None "me" None;
     Poll.mkMessage "z" "inbound" None None "me" None]
  = ["z"; "a"; "b"; "c"].
Proof. vm_compute. reflexivity. Qed.

Example poll_watermark_follows_newest :
  Poll.since (Poll.monitor 1700000000000
                [Some [wamidA]; None; Some [wamidB; wamidA]]).1
  = 1700000050000.
Proof. vm_compute. reflexivity. Qed.

(** The session transport: the same id twice is dispatched once, an
    event without id twice is dispatched twice. *)
Example inbox_duplicate_dispatched_once :
  List.length (Inbox.dispatched
    (Inbox.monitorWebInbox quietSocket
       [notify [event (Some "wamid.A") "hi"]; notify [event (Some "wamid.A") "hi"]]).2)
  = 1%nat.
Proof. vm_compute. reflexivity. Qed.

Example inbox_without_id_dispatched_twice :
  List.length (Inbox.dispatched
    (Inbox.monitorWebInbox quietSocket
       [notify [event None "hi"]; notify [event None "hi"]]).2)
  = 2%nat.
Proof. vm_compute. reflexivity. Qed.

(** Scenario B: queued, sent, delivered: success after the third poll. *)
Example wait_scenario_B :
  Dispatch.waitForFinalStatus 0 20 2 scenarioB
  = Some (Dispatch.mkOutcome Dispatch.Returned
            [Dispatch.FetchStatus "queued"; Dispatch.Sleep 2000;
             Dispatch.FetchStatus "sent"; Dispatch.Sleep 2000;
             Dispatch.FetchStatus "delivered";
             Dispatch.ConsoleLog "✅ Delivered (status: delivered)"]
            4366).
Proof. vm_compute. reflexivity. Qed.

Example wait_undelivered_exits :
  Dispatch.waitForFinalStatus 0 20 2 undeliverable
  = Some (Dispatch.mkOutcome (Dispatch.Exited 1)
            [Dispatch.FetchStatus "queued"; Dispatch.Sleep 2000;
             Dispatch.FetchStatus "undelivered";
             Dispatch.ConsoleError
               "❌ Delivery failed (status: undelivered, code 63016): outside window"]
            2243).
Proof. vm_compute. reflexivity. Qed.

Example wait_times_out :
  (fun o => (Dispatch.completion o, last (Dispatch.events o), Dispatch.clock o))
    <$> Dispatch.waitForFinalStatus 0 4 2 stuck
  = Some (Dispatch.Returned, Some (Dispatch.ConsoleLog Dispatch.timedOutLine), 4246).
Proof. vm_compute. reflexivity. Qed.

(** The media guard at the cap, one byte over it, and on a 404. *)
Example media_at_cap_loads :
  (Media.loadWebMedia atCap "https://x/y.png").1
  = Err.Ok (Media.mkLoaded (zeros 16777216) (Some "image/png"))
  ∧ (Media.loadWebMedia atCap "file:///tmp/y.png").1
    = Err.Ok (Media.mkLoaded (zeros 16777216) None).
Proof. split; vm_compute; reflexivity. Qed.

Example media_over_cap_throws :
  (Media.loadWebMedia overCap "HTTPS://x/y.png").1
  = Err.Throws (Err.AnError "Media exceeds 16MB limit (got 16.0MB)" None)
  ∧ (Media.loadWebMedia overCap "/tmp/y.png").1
    = Err.Throws (Err.AnError "Media exceeds 16MB limit (got 16.0MB)" None).
Proof. split; vm_compute; reflexivity. Qed.

Example media_not_found :
  Media.loadWebMedia notFound "https://x/y.png"
  = (Err.Throws (Err.AnError "Failed to fetch media: HTTP 404" None),
     [Media.Fetch "https://x/y.png"]).
Proof. vm_compute. reflexivity. Qed.

(** Text extraction. *)
Example extract_trims_conversation :
  Inbox.extractText (saying "  hi there ") = Some "hi there".
Proof. vm_compute. reflexivity. Qed.

Example extract_blank_conversation_uses_caption :
  Inbox.extractText
    (Some (Inbox.mkIMessage (Some "   ") (Some (Inbox.mkExtended None))
             None (Some (Inbox.mkMedia (Some " clip ") None)) None None None))
  = Some "clip".
Proof. vm_compute. reflexivity. Qed.

Example extract_sticker_placeholder :
  Inbox.bodyOf
    (Some (Inbox.mkIMessage None None None None None None
             (Some (Inbox.mkMedia None (Some "image/webp")))))
  = Some "<media:sticker>".
Proof. vm_compute. reflexivity. Qed.

(** Scenario D: the fetch fails; with text the text goes out alone,
    without text nothing goes out; the handler resolves either way. *)
Example reply_falls_back_to_text :
  (Reply.onMessage (replying (Some "hi")) inbound).1 = Err.Ok tt
  ∧ List.filter Reply.isReply (Reply.onMessage (replying (Some "hi")) inbound).2
    = [Reply.ReplyText "hi"]
  ∧ List.filter Reply.isMediaSend (Reply.onMessage (replying (Some "hi")) inbound).2
    = [].
Proof. vm_compute. auto. Qed.

Example reply_dropped_without_text :
  (Reply.onMessage (replying None) inbound).1 = Err.Ok tt
  ∧ List.filter Reply.isReply (Reply.onMessage (replying None) inbound).2 = []
  ∧ existsb (Reply.isFailureLog "+15551234567")
      (Reply.onMessage (replying None) inbound).2 = true.
Proof. vm_compute. auto. Qed.

(** A login on a fresh disk that closes for another reason leaves the
    credential directory behind, empty: ["auto"] then picks web. *)
Example auto_after_failed_login :
  let disk := Login.disk (Login.loginWeb home ∅ (Login.Closed (closedWith 408))
                            Login.Opened) in
  Selector.snapshotExists home disk = false
  ∧ (Selector.pickProvider home disk Selector.Auto).1 = Selector.web.
Proof. vm_compute. auto. Qed.
End Scenarios.

(** * The theorems with hypotheses, applied *)

(** C3 at Scenario B: the hypotheses hold of a 20 s wait polled every
    2 s, and the theorem gives the success report. *)
Lemma wait_scenario_B_reports_success :
  0 < 20 ∧ 0 < 2
  ∧ ∃ o, Dispatch.waitForFinalStatus 0 20 2 Samples.scenarioB = Some o
         ∧ Dispatch.observed (Dispatch.events o) = ["queued"; "sent"; "delivered"]
         ∧ Dispatch.reportsSuccess o.
Proof.
  split; [lia|]. split; [lia|].
  destruct (wait_reports_first_terminal_status 0 20 2 Samples.scenarioB
              ltac:(lia) ltac:(lia)) as (o & Ho & _ & _ & Hsuccess & _).
  exists o. split; [exact Ho|].
  vm_compute in Ho. injection Ho as <-.
  split; [reflexivity|].
  apply Hsuccess. exists "delivered". split; [reflexivity|].
  unfold Dispatch.successTerminalStatuses. set_solver.
Defined.

(** C5 at a first close with code 515 and a retry closing with 408. *)
Lemma login_restart_then_timeout :
  Login.closeCode (Samples.closedWith 515) = Some Login.restartRequired
  ∧ Login.result (Login.loginWeb Samples.home ∅
                    (Login.Closed (Samples.closedWith 515))
                    (Login.Closed (Samples.closedWith 408)))
    = Err.Throws (Samples.closedWith 408).
Proof.
  split; [reflexivity|].
  exact (proj2 (proj2 (login_restart_retries_once Samples.home ∅
                         (Samples.closedWith 515) eq_refl))
               (Samples.closedWith 408)).
Defined.

(** C6 at Scenario D with a text. *)
Lemma reply_scenario_D_with_text :
  Reply.resolver (Samples.replying (Some "hi"))
    = Err.Ok (Some (Reply.mkReply (Some "hi") (Some "https://x/y.png")))
  ∧ Js.truthy (Some "https://x/y.png") = true
  ∧ (Media.loadWebMedia Samples.notFound "https://x/y.png").1
    = Err.Throws (Err.AnError "Failed to fetch media: HTTP 404" None)
  ∧ (Reply.onMessage (Samples.replying (Some "hi")) Samples.inbound).1 = Err.Ok tt
  ∧ List.filter Reply.isReply
      (Reply.onMessage (Samples.replying (Some "hi")) Samples.inbound).2
    = [Reply.ReplyText "hi"].
Proof.
  split; [reflexivity|]. split; [reflexivity|]. split; [reflexivity|].
  pose proof (media_failure_falls_back_to_text
                (Samples.replying (Some "hi")) Samples.inbound
                (Reply.mkReply (Some "hi") (Some "https://x/y.png"))
                (Err.AnError "Failed to fetch media: HTTP 404" None)
                eq_refl eq_refl (or_introl eq_refl)) as (Hok & _ & Hreplies).
  split; [exact Hok | exact Hreplies].
Defined.



(** * Further properties of the poll transport *)

Section PollMore.
Import Poll.

(** What [handleEntry] does depends on the state only; the trace so far
    is carried along. *)
Lemma handleEntry_carries st log m :
  handleEntry (st, log) m
  = ((handleEntry (st, []) m).1, log ++ (handleEntry (st, []) m).2).
Proof.
  unfold handleEntry. case_decide; simpl; [by rewrite app_nil_r | done].
Qed.

Lemma fold_handleEntry_carries l st log :
  fold_left handleEntry l (st, log)
  = ((fold_left handleEntry l (st, [])).1,
     log ++ (fold_left handleEntry l (st, [])).2).
Proof.
  revert st log. induction l as [|m l IH]; intros st log; cbn [fold_left].
  - by rewrite app_nil_r.
  - rewrite handleEntry_carries.
    destruct (handleEntry (st, []) m) as [st1 k] eqn:E. cbn [fst snd].
    rewrite IH. rewrite (IH st1 k). cbn [fst snd]. by rewrite app_assoc.
Qed.

Lemma monitorFrom_carries fs st log :
  monitorFrom (st, log) fs
  = ((monitorFrom (st, []) fs).1, log ++ (monitorFrom (st, []) fs).2).
Proof.
  unfold monitorFrom.
  revert st log. induction fs as [|f fs IH]; intros st log; cbn [fold_left].
  - by rewrite app_nil_r.
  - assert (pollOnce (st, log) f
            = ((pollOnce (st, []) f).1, log ++ (pollOnce (st, []) f).2)) as ->.
    { destruct f; simpl; [apply fold_handleEntry_carries | done]. }
    destruct (pollOnce (st, []) f) as [st1 k] eqn:E. cbn [fst snd].
    rewrite IH. rewrite (IH st1 k). cbn [fst snd]. by rewrite app_assoc.
Qed.

Lemma accepted_app (l k : list Event) : accepted (l ++ k) = accepted l ++ accepted k.
Proof. apply omap_app. Qed.

(** Emitted entries keep any property that holds of the entries fed in. *)
Lemma fold_handleEntry_accepted (P : MessageInstance → Prop) l acc :
  (∀ m, m ∈ accepted acc.2 → P m) → (∀ m, m ∈ l → P m) →
  ∀ m, m ∈ accepted (fold_left handleEntry l acc).2 → P m.
Proof.
  revert acc. induction l as [|x l IH]; intros acc Hacc Hl; simpl; [done|].
  apply IH.
  - destruct acc as [st log]. unfold handleEntry.
    case_decide; simpl; [done|].
    intros m. rewrite accepted_snoc, elem_of_app, list_elem_of_singleton.
    intros [Hm | ->]; [by apply Hacc | apply Hl, elem_of_cons; by left].
  - intros m Hm. apply Hl, elem_of_cons. by right.
Qed.

Lemma monitorFrom_accepted (P : MessageInstance → Prop) fs acc :
  (∀ m, m ∈ accepted acc.2 → P m) →
  (∀ ms m, Some ms ∈ fs → m ∈ ms → isInbound m = true → P m) →
  ∀ m, m ∈ accepted (monitorFrom acc fs).2 → P m.
Proof.
  revert acc. induction fs as [|f fs IH]; intros acc Hacc Hfs; simpl; [done|].
  apply IH.
  - destruct f as [ms|]; simpl.
    + apply fold_handleEntry_accepted; [done|].
      intros m Hm. apply sortByCreated_elem, list_elem_of_In, filter_In in Hm.
      destruct Hm as [Hm Hin]. apply (Hfs ms); [apply elem_of_cons; by left | |done].
      by apply list_elem_of_In.
    + intros m. rewrite accepted_snoc, app_nil_r. apply Hacc.
  - intros ms m Hms. apply Hfs, elem_of_cons. by right.
Qed.
End PollMore.

(** X1: over any run of the poll loop, the emitted entries are exactly
    the inbound entries that the fetches returned: every emitted entry
    is inbound and was returned by some fetch, and every inbound entry
    that some fetch returned has its sid among the emitted ones. *)
Theorem poll_emits_exactly_fetched_inbound
    (since0 : Z) (fetches : list (option (list Poll.MessageInstance))) :
  let log := (Poll.monitor since0 fetches).2 in
  (∀ m, m ∈ Poll.accepted log →
        Poll.isInbound m = true ∧ ∃ ms, Some ms ∈ fetches ∧ m ∈ ms)
  ∧ (∀ ms m, Some ms ∈ fetches → m ∈ ms → Poll.isInbound m = true →
             Poll.sid m ∈ Poll.sid <$> Poll.accepted log).
Proof.
  split.
  - apply (monitorFrom_accepted
             (fun m => Poll.isInbound m = true ∧ ∃ ms, Some ms ∈ fetches ∧ m ∈ ms)).
    + intros m Hm. by apply elem_of_nil in Hm.
    + intros ms m Hms Hm Hin. eauto.
  - intros ms m Hms Hm Hin. by eapply poll_inbound_emitted.
Qed.

(** X2: a fetch that throws is invisible apart from its error line: with
    or without the failed iteration the loop ends in the same state
    (watermark and seen-set) and has emitted the same entries. *)
Theorem poll_failed_fetch_changes_nothing
    (since0 : Z) (before after : list (option (list Poll.MessageInstance))) :
  let failing := Poll.monitor since0 (before ++ None :: after) in
  let clean := Poll.monitor since0 (before ++ after) in
  failing.1 = clean.1
  ∧ Poll.accepted failing.2 = Poll.accepted clean.2
  ∧ Poll.PollError ∈ failing.2.
Proof.
  intros failing clean. unfold failing, clean.
  rewrite !monitor_app. simpl.
  destruct (Poll.monitor since0 before) as [st log]. simpl.
  rewrite (monitorFrom_carries after st (log ++ [Poll.PollError])).
  rewrite (monitorFrom_carries after st log). simpl.
  split_and!; [done| |].
  - rewrite !accepted_app. simpl. by rewrite app_nil_r.
  - rewrite !elem_of_app, list_elem_of_singleton. auto.
Qed.

Section SortFacts.
Import Poll View.

Lemma insertSorted_perm m l : insertSorted m l ≡ₚ m :: l.
Proof.
  induction l as [|x l IH]; simpl; [done|].
  destruct (sortKey m <=? sortKey x); [done|].
  rewrite IH. apply Permutation_swap.
Qed.

Lemma insertSorted_sorted m l :
  ascending l → ascending (insertSorted m l).
Proof.
  induction 1 as [|x l Hl IH Hx]; simpl.
  - repeat constructor.
  - destruct (Z.leb_spec (sortKey m) (sortKey x)) as [Hle|Hgt].
    + constructor; [by constructor|].
      constructor; [done|].
      eapply Forall_impl; [exact Hx|]. simpl. intros; lia.
    + constructor; [done|].
      rewrite insertSorted_perm. constructor; [lia | done].
Qed.

(** Inserting into a sorted list puts the entry before those of the
    same key. *)
Lemma insertSorted_filter k m l :
  ascending l →
  List.filter (hasKey k) (insertSorted m l) = List.filter (hasKey k) (m :: l).
Proof.
  induction 1 as [|x l Hl IH Hx]; [done|].
  cbn [insertSorted].
  destruct (Z.leb_spec (sortKey m) (sortKey x)) as [Hle|Hgt]; [done|].
  cbn [List.filter]. rewrite IH. cbn [List.filter]. unfold hasKey.
  destruct (Z.eqb_spec (sortKey x) k), (Z.eqb_spec (sortKey m) k); try done.
  lia.
Qed.
End SortFacts.

Section SortRuns.
Import Poll View.

Lemma sortByCreated_perm l : sortByCreated l ≡ₚ l.
Proof.
  induction l as [|m l IH]; simpl; [done|].
  by rewrite insertSorted_perm, IH.
Qed.

Lemma sortByCreated_ascending l : ascending (sortByCreated l).
Proof.
  induction l as [|m l IH]; simpl; [constructor|].
  by apply insertSorted_sorted.
Qed.

Lemma sortByCreated_filter k l :
  List.filter (hasKey k) (sortByCreated l) = List.filter (hasKey k) l.
Proof.
  induction l as [|m l IH]; simpl; [done|].
  rewrite insertSorted_filter by apply sortByCreated_ascending.
  simpl. by rewrite IH.
Qed.

Lemma ascending_sublist l1 l2 : l1 `sublist_of` l2 → ascending l2 → ascending l1.
Proof.
  unfold ascending. induction 1 as [|x l1 l2 Hsub IH|x l1 l2 Hsub IH]; intros Hs.
  - constructor.
  - apply StronglySorted_inv in Hs as [Hs Hx]. constructor; [by apply IH|].
    apply Forall_forall. intros y Hy.
    rewrite Forall_forall in Hx. apply Hx. by eapply elem_of_sublist.
  - apply StronglySorted_inv in Hs as [Hs _]. by apply IH.
Qed.

(** One batch: the emitted entries are a sublist of the batch. *)
Lemma fold_handleEntry_sublist l st :
  accepted (fold_left handleEntry l (st, [])).2 `sublist_of` l.
Proof.
  revert st. induction l as [|m l IH]; intros st; cbn [fold_left]; [done|].
  destruct (handleEntry (st, []) m) as [st1 k] eqn:E.
  rewrite fold_handleEntry_carries. cbn [snd].
  rewrite accepted_app.
  unfold handleEntry in E. case_decide; simplify_eq/=.
  - by apply sublist_cons.
  - by apply sublist_skip.
Qed.
End SortRuns.

(** X3: the sort of a fetched page is a stable sort by creation time:
    the sorted page has the same entries, in ascending order of the
    sort key, and entries with the same key keep the order of the page;
    so within one iteration the loop emits entries in ascending order of
    creation time. *)
Theorem poll_sort_is_stable_and_emission_ascending
    (l : list Poll.MessageInstance) (acc : Poll.State * list Poll.Event) :
  Poll.sortByCreated l ≡ₚ l
  ∧ View.ascending (Poll.sortByCreated l)
  ∧ (∀ k, List.filter (View.hasKey k) (Poll.sortByCreated l)
          = List.filter (View.hasKey k) l)
  ∧ ∃ new, (Poll.pollOnce acc (Some l)).2 = acc.2 ++ new
           ∧ View.ascending (Poll.accepted new).
Proof.
  split_and!.
  - apply sortByCreated_perm.
  - apply sortByCreated_ascending.
  - intros k. apply sortByCreated_filter.
  - destruct acc as [st log]. simpl.
    rewrite fold_handleEntry_carries. simpl. eexists. split; [done|].
    eapply ascending_sublist; [apply fold_handleEntry_sublist|].
    apply sortByCreated_ascending.
Qed.

(** * Further properties of the outbound dispatcher *)

Section DispatchMore.
Import Dispatch.

Lemma observed_cons_event st ms o :
  observed (events (cons_event [FetchStatus st; Sleep ms] o))
  = st :: observed (events o).
Proof. done. Qed.


(** Nothing is fetched after a terminal status. *)
Lemma waitLoop_stops_at_terminal (deadline pollSeconds : Z) (rounds : nat → Round) :
  ∀ (fuel i : nat) (now : Z) (o : Outcome),
    waitLoop fuel deadline pollSeconds rounds i now = Some o →
    ∀ (j : nat) (s : string),
      observed (events o) !! j = Some s → isTerminal s = true →
      S j = length (observed (events o)).
Proof.
  intros fuel. induction fuel as [|fuel IH]; intros i now o; simpl.
  - destruct (Z.ltb_spec now deadline); [done|]. intros [= <-]. done.
  - destruct (Z.ltb_spec now deadline) as [Hlt|Hge]; [|intros [= <-]; done].
    case_bool_decide as Hs; [intros [= <-] [|j] s; done|].
    case_bool_decide as Hf; [intros [= <-] [|j] s; done|].
    destruct (waitLoop fuel _ _ _ _ _) as [o'|] eqn:Hrec; [|done].
    intros [= <-] j s. rewrite observed_cons_event.
    destruct j as [|j]; simpl.
    + intros [= <-]. by rewrite isTerminal_false.
    + intros Hj Ht. f_equal. by eapply IH.
Qed.
End DispatchMore.


(** X5: the wait never polls again after a terminal status: a terminal
    status among those observed is the last one observed. *)
Theorem wait_stops_at_first_terminal
    (now timeoutSeconds pollSeconds : Z) (rounds : nat → Dispatch.Round)
    (o : Dispatch.Outcome)
    (Hrun : Dispatch.waitForFinalStatus now timeoutSeconds pollSeconds rounds = Some o) :
  ∀ (j : nat) (s : string),
    Dispatch.observed (Dispatch.events o) !! j = Some s →
    Dispatch.isTerminal s = true →
    S j = length (Dispatch.observed (Dispatch.events o)).
Proof. by eapply waitLoop_stops_at_terminal. Qed.

(** X6: the [send] action always comes to an end, for every parsed
    [--wait] and [--poll] and every stream of statuses: its checks let
    the wait start only with a positive interval. It polls the status
    only when the wait is positive, the interval is positive and the
    send went through; when the wait or the interval is not a number or
    out of range, or the send failed, it exits with code 1 without
    polling. *)
Theorem send_action_always_ends
    (wait poll : option Z) (sent : option string) (now : Z)
    (rounds : nat → Dispatch.Round) :
  ∃ o, Dispatch.sendAction wait poll sent now rounds = Some o
    ∧ (Dispatch.observed (Dispatch.events o) ≠ [] →
       ∃ w p sid, wait = Some w ∧ 0 < w ∧ poll = Some p ∧ 0 < p ∧ sent = Some sid)
    ∧ ((∀ w p sid, wait = Some w → poll = Some p → sent = Some sid →
                   ¬ (0 <= w ∧ 0 < p)) →
       Dispatch.completion o = Dispatch.Exited 1
       ∧ Dispatch.observed (Dispatch.events o) = [])
    ∧ (wait = Some 0 → Dispatch.observed (Dispatch.events o) = []).
Proof.
  unfold Dispatch.sendAction.
  destruct wait as [w|]; [|eexists; split; [done|]; split_and!; try done].
  destruct (Z.ltb_spec w 0); [eexists; split; [done|]; split_and!; try done|].
  destruct poll as [p|]; [|eexists; split; [done|]; split_and!; try done].
  destruct (Z.leb_spec p 0); [eexists; split; [done|]; split_and!; try done|].
  destruct sent as [sid|]; [|eexists; split; [done|]; split_and!; try done].
  destruct (Z.eqb_spec w 0) as [->|Hw].
  - eexists; split; [done|]. split_and!; try done.
    all: intros Hno; exfalso; eapply Hno; eauto; try lia.
  - unfold Dispatch.waitForFinalStatus.
    destruct (waitLoop_spec (now + w * 1000) p rounds ltac:(lia)
                (Z.to_nat (w * 1000)) 0%nat now ltac:(lia)) as (o & -> & _).
    exists o. split; [done|]. split_and!.
    + intros _. exists w, p, sid. split_and!; try done; lia.
    + intros Hno. exfalso. eapply Hno; eauto; try lia.
    + intros [= ->]. done.
Qed.

(** * Further properties of the media guard *)

Section MediaMore.
Import Err Media.

Lemma substring_whole (s : string) : String.substring 0 (String.length s) s = s.
Proof. induction s as [|c s IH]; simpl; [done|]. by rewrite IH. Qed.

Lemma strip_file_scheme (p : string) : stripFileScheme ("file://" +:+ p) = p.
Proof.
  assert ("file://" +:+ p
          = String "f" (String "i" (String "l" (String "e"
              (String ":" (String "/" (String "/" p))))))) as -> by reflexivity.
  unfold stripFileScheme, Js.startsWith, Js.drop. simpl.
  assert (String.prefix "" p = true) as -> by (by destruct p).
  rewrite Nat.sub_0_r. apply substring_whole.
Qed.
End MediaMore.

(** X7: a [file://] reference is the local path behind the scheme: for
    a path that does not itself begin with [file://], loading
    [file://path] is loading [path]. And for every reference, one that
    is an http(s) URL (in any letter case) after the scheme is stripped
    never reads a file, and any other reference reads exactly that file
    and never goes to the network. *)
Theorem media_file_scheme_is_local_path
    (w : Media.World) (path : string)
    (Hpath : Js.startsWith path "file://" = false) :
  Media.loadWebMedia w ("file://" +:+ path) = Media.loadWebMedia w path
  ∧ (∀ ref,
       let url := Media.stripFileScheme ref in
       (Media.isHttpUrl url = true →
        ∀ e, e ∈ (Media.loadWebMedia w ref).2 →
             e = Media.Fetch url ∨ e = Media.ArrayBuffer)
       ∧ (Media.isHttpUrl url = false →
          (Media.loadWebMedia w ref).2 = [Media.ReadFile url])).
Proof.
  split.
  - assert (Media.stripFileScheme path = path) as Hsame.
    { unfold Media.stripFileScheme. by rewrite Hpath. }
    unfold Media.loadWebMedia. by rewrite strip_file_scheme, Hsame.
  - intros ref url. unfold Media.loadWebMedia. fold url. split; intros ->.
    + intros e. repeat case_match; simpl;
        rewrite ?elem_of_cons, ?elem_of_nil; naive_solver.
    + by repeat case_match.
Qed.

(** * Further properties of the login *)

(** X8: for every run of the login: it resolves exactly when the first
    connection opens, or closes with code 515 and the retry opens; the
    pairing prompt is offered by exactly one socket; a socket without
    the prompt is created exactly when the first close has code 515,
    and never two; every socket created is scheduled to be closed; and a close
    with any code other than 515 and 401 is rejected with an [Error]
    carrying the formatted reason, without a retry. *)
Theorem login_outcome_and_sockets
    (home : Fs.Path) (fs : gset Fs.Path) (first retry : Login.Connection) :
  let run := Login.loginWeb home fs first retry in
  (Login.result run = Err.Ok tt
   ↔ first = Login.Opened
     ∨ ∃ e, first = Login.Closed e
            ∧ Login.closeCode e = Some Login.restartRequired
            ∧ retry = Login.Opened)
  ∧ Login.prompts (Login.events run) = 1%nat
  ∧ (Login.reconnects (Login.events run) = 1%nat
     ↔ ∃ e, first = Login.Closed e
            ∧ Login.closeCode e = Some Login.restartRequired)
  ∧ (Login.reconnects (Login.events run) <= 1)%nat
  ∧ (∀ s, s ∈ View.created (Login.events run)
          ↔ s ∈ View.closedLater (Login.events run))
  ∧ (∀ e, first = Login.Closed e →
          Login.closeCode e ≠ Some Login.restartRequired →
          Login.closeCode e ≠ Some Login.loggedOut →
          Login.result run = Err.Throws (Err.AnError (Err.formatError e) None)
          ∧ Login.reconnects (Login.events run) = 0%nat
          ∧ Login.disk run = Fs.ensureDir (Fs.WA_WEB_AUTH_DIR home) fs).
Proof.
  intros run. unfold run, Login.loginWeb.
  destruct first as [|e];
    [| case_bool_decide as H515;
       [destruct retry as [|e2] | case_bool_decide as H401]];
    simpl; split_and!;
    first [ done | lia | by (intros s; set_solver) | naive_solver ].
Qed.

Section LoginDisk.
Import Login.

Lemma webAuth_after_ensureDir home fs :
  Selector.webAuthExists home (Fs.ensureDir (Fs.WA_WEB_AUTH_DIR home) fs) = true.
Proof.
  unfold Selector.webAuthExists, Fs.access, Fs.ensureDir.
  apply bool_decide_eq_true_2. set_solver.
Qed.

Lemma webAuth_after_remove home fs :
  Selector.webAuthExists home (Fs.rmRecursive (Fs.WA_WEB_AUTH_DIR home) fs) = false.
Proof.
  unfold Selector.webAuthExists, Fs.access.
  apply bool_decide_eq_false_2. rewrite rmRecursive_spec.
  intros [_ Hn]. by apply Hn.
Qed.
End LoginDisk.

(** X9: provider selection after a login attempt: on the disk that a
    login leaves, ["auto"] resolves to twilio exactly when the login's
    connection closed with the logged-out code, and to web after every
    other outcome, successful or not, whatever was on the disk before. *)
Theorem auto_provider_after_login
    (home : Fs.Path) (fs : gset Fs.Path) (first retry : Login.Connection) :
  let after := Login.disk (Login.loginWeb home fs first retry) in
  ((Selector.pickProvider home after Selector.Auto).1 = Selector.twilio
   ↔ ∃ e, first = Login.Closed e ∧ Login.closeCode e = Some Login.loggedOut)
  ∧ ((Selector.pickProvider home after Selector.Auto).1 = Selector.web
     ↔ ¬ ∃ e, first = Login.Closed e ∧ Login.closeCode e = Some Login.loggedOut).
Proof.
  intros after. unfold after, Login.loginWeb, Selector.pickProvider. simpl.
  destruct first as [|e]; simpl.
  { rewrite webAuth_after_ensureDir. naive_solver. }
  case_bool_decide as H515.
  - assert (Login.closeCode e ≠ Some Login.loggedOut) as Hno.
    { rewrite H515. done. }
    destruct retry; simpl; rewrite ensureDir_twice, webAuth_after_ensureDir;
      naive_solver.
  - case_bool_decide as H401; simpl.
    + rewrite webAuth_after_remove. naive_solver.
    + rewrite webAuth_after_ensureDir. naive_solver.
Qed.

(** * Further properties of the session transport inbox *)

Section InboxMore.
Import Inbox View.
Variable env : Env.

Lemma truthy_nonempty (s : option string) :
  Js.truthy s = true → Js.orElse s "" ≠ "".
Proof. by destruct s as [[|]|]. Qed.



Lemma bodyOf_nonempty message body : bodyOf message = Some body → body ≠ "".
Proof.
  unfold bodyOf.
  destruct (Js.truthy (extractText message)) eqn:E1.
  { intros H. rewrite H in E1. by apply (truthy_nonempty (Some body)). }
  destruct (Js.truthy (extractMediaPlaceholder message)) eqn:E2; [|done].
  intros H. rewrite H in E2. by apply (truthy_nonempty (Some body)).
Qed.

(** One turn hands over at most one message, and a well-formed one. *)
Lemma processMessage_wellFormed seen log msg :
  ∀ m, m ∈ dispatched (processMessage env (seen, log) msg).2 →
       m ∈ dispatched log ∨ wellFormed m.
Proof.
  unfold processMessage.
  pose proof (inboundMedia_quiet env msg) as Hquiet.
  destruct (inboundMedia env msg) as [[mediaPath mediaType] mlog].
  simpl in Hquiet. unfold dispatched in *.
  repeat case_match; simplify_eq/=; try (by left);
    intros m; rewrite ?omap_app, ?Hquiet; simpl; rewrite ?omap_app, ?Hquiet; simpl;
    rewrite ?app_nil_r, ?elem_of_app, ?elem_of_cons, ?elem_of_nil;
    (intros Hm; destruct_or?; try (by left); try done; subst m; right);
    unfold wellFormed; simpl;
    repeat match goal with
           | H : negb _ = false |- _ => apply negb_false_iff in H
           | H : _ || _ = false |- _ => apply orb_false_iff in H as [? ?]
           end;
    (split_and!; [ by apply truthy_nonempty
                 | by eapply bodyOf_nonempty
                 | by apply (truthy_nonempty (Some _))
                 | done | done ]).
Qed.

Lemma monitorWebInbox_all (P : WebInboundMessage → Prop) :
  (∀ seen log msg m,
     m ∈ dispatched (processMessage env (seen, log) msg).2 →
     m ∈ dispatched log ∨ P m) →
  ∀ upserts m, m ∈ dispatched (monitorWebInbox env upserts).2 → P m.
Proof.
  intros Hstep upserts. unfold monitorWebInbox.
  assert (∀ m, m ∈ dispatched (∅ : gset string, @nil Event).2 → P m) as H0.
  { intros m Hm. by apply elem_of_nil in Hm. }
  revert H0. generalize (∅ : gset string, @nil Event).
  induction upserts as [|u us IH]; intros acc Hacc; simpl; [done|].
  apply IH. unfold handleUpsert. destruct (negb _); [done|].
  generalize (messages u). intros l. revert acc Hacc.
  induction l as [|msg l IHl]; intros acc Hacc; simpl; [done|].
  apply IHl. destruct acc as [seen log]. intros m Hm.
  destruct (Hstep _ _ _ _ Hm); [by apply Hacc | done].
Qed.
End InboxMore.

(** X10: every message that the inbox hands to the handler, over any
    event stream and environment, has a sender and a body that are not
    empty, and belongs to a chat that is neither a status nor a
    broadcast chat. *)
Theorem inbox_dispatches_only_well_formed
    (env : Inbox.Env) (upserts : list Inbox.Upsert) (m : Inbox.WebInboundMessage)
    (Hm : m ∈ Inbox.dispatched (Inbox.monitorWebInbox env upserts).2) :
  Inbox.inFrom m ≠ "" ∧ Inbox.inBody m ≠ "" ∧ Inbox.chatJid m ≠ ""
  ∧ Js.endsWith (Inbox.chatJid m) "@status" = false
  ∧ Js.endsWith (Inbox.chatJid m) "@broadcast" = false.
Proof.
  revert Hm. apply (monitorWebInbox_all env View.wellFormed).
  apply processMessage_wellFormed.
Qed.

Section InboxInduction.
Import Inbox View.

(** Induction over a run of the listener. *)
Lemma monitorWebInbox_ind env (I : gset string * list Event → Prop) :
  I (∅, []) →
  (∀ acc msg, I acc → I (processMessage env acc msg)) →
  ∀ upserts, I (monitorWebInbox env upserts).
Proof.
  intros H0 Hstep upserts. unfold monitorWebInbox.
  revert H0. generalize (∅ : gset string, @nil Event).
  induction upserts as [|u us IH]; intros acc Hacc; simpl; [done|].
  apply IH. unfold handleUpsert. destruct (negb _); [done|].
  generalize (messages u). intros l. revert acc Hacc.
  induction l as [|msg l IHl]; intros acc Hacc; simpl; [done|].
  by apply IHl, Hstep.
Qed.


(** What a turn does depends on [seen] only; the trace so far is
    carried along. *)
Lemma processMessage_carries env seen log msg :
  processMessage env (seen, log) msg
  = ((processMessage env (seen, []) msg).1,
     log ++ (processMessage env (seen, []) msg).2).
Proof.
  unfold processMessage.
  destruct (inboundMedia env msg) as [[mediaPath mediaType] mlog].
  repeat case_match; simplify_eq/=; rewrite ?app_nil_r, <- ?app_assoc; done.
Qed.

End InboxInduction.


Section InboxReceipts.
Import Inbox View.
Variable env : Env.

Lemma receipts_app (l k : list Event) : receipts (l ++ k) = receipts l ++ receipts k.
Proof. apply omap_app. Qed.

Lemma inboundMedia_no_receipt (msg : WAMessage) :
  receipts (inboundMedia env msg).2 = [].
Proof.
  unfold inboundMedia, downloadInboundMedia.
  repeat case_match; simplify_eq/=; done.
Qed.

(** One turn: at most one receipt, for an id not seen before and seen
    afterwards; a message handed over with an id has its receipt. *)
Lemma processMessage_receipts (seen : gset string) (msg : WAMessage) :
  let r := processMessage env (seen, []) msg in
  seen ⊆ r.1
  ∧ (receipts r.2 = []
     ∨ ∃ jid i, receipts r.2 = [(jid, i)] ∧ (i ∉ seen) ∧ i ∈ r.1)
  ∧ (∀ m i, m ∈ dispatched r.2 → dedupId m = Some i →
            (chatJid m, i) ∈ receipts r.2).
Proof.
  unfold processMessage.
  set (mid := key msg ≫= id).
  destruct (Js.truthy mid && bool_decide (Js.orElse mid "" ∈ seen)) eqn:Hdup.
  { simpl. split_and!; [done | by left | intros m i Hm; by apply elem_of_nil in Hm]. }
  set (seen1 := if Js.truthy mid then {[Js.orElse mid ""]} ∪ seen else seen).
  assert (seen ⊆ seen1) as Hsub.
  { unfold seen1. destruct (Js.truthy mid); set_solver. }
  assert (Js.truthy mid = true →
          (Js.orElse mid "" ∉ seen) ∧ Js.orElse mid "" ∈ seen1) as Hfresh.
  { intros Ht. rewrite Ht in Hdup. simpl in Hdup.
    apply bool_decide_eq_false in Hdup. unfold seen1. rewrite Ht. set_solver. }
  pose proof (inboundMedia_quiet env msg) as Hquiet.
  pose proof (inboundMedia_no_receipt msg) as Hnone.
  destruct (inboundMedia env msg) as [[mediaPath mediaType] mlog].
  simpl in Hquiet, Hnone. unfold dispatched, receipts, dedupId in *.
  clearbody mid.
  repeat case_match; simplify_eq/=;
    rewrite ?omap_app, ?Hquiet, ?Hnone; simpl;
    rewrite ?omap_app, ?Hquiet, ?Hnone; simpl;
    (split_and!;
     [ done
     | first [ by left | right; eexists _, _; split; [reflexivity | by apply Hfresh] ]
     | intros m i; rewrite ?elem_of_cons, ?elem_of_nil;
       intros Hm Hi; destruct_or?; try done; subst m; simpl in Hi;
       destruct mid as [[|]|]; simplify_eq/=; auto ]).
Qed.
End InboxReceipts.

(** X12: read receipts of the inbox, over any event stream and
    environment: no message id is acknowledged twice, only remembered
    ids are acknowledged, and every message handed to the handler with
    an id has been acknowledged in its own chat. *)
Theorem inbox_read_receipts_once_per_id
    (env : Inbox.Env) (upserts : list Inbox.Upsert) :
  let run := Inbox.monitorWebInbox env upserts in
  NoDup (View.receipts run.2).*2
  ∧ (∀ jid i, (jid, i) ∈ View.receipts run.2 → i ∈ run.1)
  ∧ (∀ m i, m ∈ Inbox.dispatched run.2 → Inbox.dedupId m = Some i →
            (Inbox.chatJid m, i) ∈ View.receipts run.2).
Proof.
  apply (monitorWebInbox_ind env
           (fun acc =>
              NoDup (View.receipts acc.2).*2
              ∧ (∀ jid i, (jid, i) ∈ View.receipts acc.2 → i ∈ acc.1)
              ∧ (∀ m i, m ∈ Inbox.dispatched acc.2 → Inbox.dedupId m = Some i →
                        (Inbox.chatJid m, i) ∈ View.receipts acc.2))).
  { split_and!; simpl; [constructor | |]; intros ? ? H; by apply elem_of_nil in H. }
  intros [seen log] msg (Hnd & Hseen & Hcov). simpl in Hnd, Hseen, Hcov.
  rewrite processMessage_carries. cbn [fst snd].
  destruct (processMessage_receipts env seen msg) as (Hsub & Hnew & Hcov').
  rewrite receipts_app, dispatched_app, fmap_app.
  split_and!.
  - destruct Hnew as [-> | (jid & i & -> & Hout & Hin)]; simpl.
    + by rewrite app_nil_r.
    + apply NoDup_app. split_and!; [done | | apply NoDup_singleton].
      intros j Hj Hj'. apply list_elem_of_singleton in Hj'. subst j.
      apply list_elem_of_fmap in Hj as ([jid' i'] & -> & Hj). simpl in Hout.
      by apply Hout, (Hseen jid').
  - intros jid i [Hi | Hi]%elem_of_app.
    + apply Hsub. by eapply Hseen.
    + destruct Hnew as [Hnew | (jid' & i' & Hnew & _ & Hin)]; rewrite Hnew in Hi.
      * by apply elem_of_nil in Hi.
      * apply list_elem_of_singleton in Hi. by simplify_eq.
  - intros m i [Hm | Hm]%elem_of_app Hi; apply elem_of_app.
    + left. by apply Hcov.
    + right. by apply Hcov'.
Qed.

(** * Further properties of the auto-reply handler *)

Section ReplyMore.
Import Err Reply View.

Lemma no_media_in_guard (l : list Media.Effect) :
  List.filter isMediaSend (Guard <$> l) = [].
Proof. induction l as [|x l IH]; simpl; done. Qed.

Lemma no_sent_in_guard (l : list Media.Effect) :
  existsb isSentMedia (Guard <$> l) = false.
Proof. induction l as [|x l IH]; simpl; done. Qed.
End ReplyMore.


(** X14: for every run of the handler: at most one media message and at
    most one text reply go out; a text reply after a media message that
    went out never happens; without a media URL in the resolver's
    result the media guard is not called and no media goes out; and
    when the resolver returns nothing, or neither text nor media URL,
    nothing is sent and nothing is fetched. *)
Theorem reply_sends_at_most_one
    (env : Reply.Env) (msg : Inbox.WebInboundMessage) :
  let log := (Reply.onMessage env msg).2 in
  (length (List.filter Reply.isMediaSend log) <= 1)%nat
  ∧ (length (List.filter Reply.isReply log) <= 1)%nat
  ∧ (existsb View.isSentMedia log = true → List.filter Reply.isReply log = [])
  ∧ (∀ r, Reply.resolver env = Err.Ok (Some r) →
          Js.truthy (Reply.mediaUrl r) = false →
          List.filter View.isGuard log = []
          ∧ List.filter Reply.isMediaSend log = []
          ∧ (Js.truthy (Reply.text r) = true →
             List.filter Reply.isReply log
             = [Reply.ReplyText (Js.orElse (Reply.text r) "")]))
  ∧ (Reply.resolver env = Err.Ok None
     ∨ (∃ r, Reply.resolver env = Err.Ok (Some r)
             ∧ Js.truthy (Reply.text r) = false
             ∧ Js.truthy (Reply.mediaUrl r) = false) →
     List.filter Reply.isReply log = []
     ∧ List.filter Reply.isMediaSend log = []
     ∧ List.filter View.isGuard log = []).
Proof.
  intros log. unfold log, Reply.onMessage, Reply.sendMediaReply.
  destruct (Reply.resolver env) as [[r|]|e0]; simpl.
  2,3: split_and!; first [done | lia | naive_solver].
  destruct (Js.truthy (Reply.text r)) eqn:Ht,
           (Js.truthy (Reply.mediaUrl r)) eqn:Hu; simpl;
    try destruct (Media.loadWebMedia (Reply.world env) _) as [[media|e1] effects];
    try destruct (Reply.sendMedia env);
    try destruct (Reply.reply env);
    simpl;
    rewrite ?List.filter_app, ?existsb_app; simpl;
    rewrite ?List.filter_app, ?existsb_app; simpl;
    rewrite ?no_reply_in_guard, ?no_media_in_guard, ?no_sent_in_guard; simpl;
    (split_and!;
     [ lia | lia | done
     | intros r' [= <-] ?; first [ congruence
                                 | split_and!; first [done | intros; congruence] ]
     | intros [? | (r' & [= <-] & ? & ?)];
       first [ done | congruence | split_and!; done ] ]).
Qed.

(** * Further properties of the text extraction *)

Section TrimFacts.
Import View.






End TrimFacts.


(** X16: the placeholder and the media download agree on what a media
    message is: for a message without placeholder no download is tried
    and nothing is logged; for a message with a placeholder the
    download is tried, its buffer is returned when it succeeds, and a
    failing download is logged and gives no media instead of failing
    the turn. *)
Theorem placeholder_means_download_is_tried
    (env : Inbox.Env) (msg : Inbox.WAMessage) :
  (Inbox.extractMediaPlaceholder (Inbox.message msg) = None →
   Inbox.downloadInboundMedia env msg = (None, []))
  ∧ (is_Some (Inbox.extractMediaPlaceholder (Inbox.message msg)) →
     (∀ buffer, Inbox.downloadMediaMessage env msg = Err.Ok buffer →
        ∃ mime, Inbox.downloadInboundMedia env msg = (Some (buffer, mime), []))
     ∧ (∀ e, Inbox.downloadMediaMessage env msg = Err.Throws e →
          Inbox.downloadInboundMedia env msg
          = (None, [Inbox.LogVerbose ("downloadMediaMessage failed: "
                                        +:+ Err.toString e)]))).
Proof.
  unfold Inbox.extractMediaPlaceholder, Inbox.downloadInboundMedia.
  destruct (Inbox.message msg) as [m|]; [|split; [done | by intros [? ?]]].
  destruct (Inbox.imageMessage m), (Inbox.videoMessage m), (Inbox.audioMessage m),
           (Inbox.documentMessage m), (Inbox.stickerMessage m); simpl;
    (split; [done || (intros _; done) | ]);
    try (intros [? ?]; done);
    (intros _; split; [intros buffer -> | intros e ->]; eauto).
Qed.

(** * Numbers and sender lookup *)

Section TwilioFacts.
Import Err Twilio.

Lemma prefix_empty (s : string) : String.prefix "" s = true.
Proof. by destruct s. Qed.

Lemma prefixed_starts (n : string) : Js.startsWith ("whatsapp:" +:+ n) "whatsapp:" = true.
Proof.
  assert ("whatsapp:" +:+ n
          = String "w" (String "h" (String "a" (String "t" (String "s"
              (String "a" (String "p" (String "p" (String ":" n)))))))))
    as -> by reflexivity.
  unfold Js.startsWith. simpl. apply prefix_empty.
Qed.

(** [find] returns the first element that satisfies the predicate. *)
Lemma find_first {A} (f : A → bool) (l : list A) (x : A) :
  List.find f l = Some x
  ↔ ∃ pre post, l = pre ++ x :: post ∧ f x = true ∧ ∀ y, y ∈ pre → f y = false.
Proof.
  induction l as [|a l IH]; simpl.
  - split; [done|]. intros (pre & post & H & _). by destruct pre.
  - destruct (f a) eqn:Ea.
    + split.
      * intros [= <-]. exists [], l. split_and!; [done|done|].
        intros y Hy. by apply elem_of_nil in Hy.
      * intros ([|b pre] & post & H & Hx & Hpre); simplify_eq/=; [done|].
        rewrite Hpre in Ea; [done | apply elem_of_cons; by left].
    + rewrite IH. split.
      * intros (pre & post & -> & Hx & Hpre). exists (a :: pre), post.
        split_and!; [done|done|].
        intros y [-> | Hy]%elem_of_cons; [done | by apply Hpre].
      * intros ([|b pre] & post & H & Hx & Hpre); simplify_eq/=.
        { by rewrite Hx in Ea. }
        exists pre, post. split_and!; [done|done|].
        intros y Hy. apply Hpre, elem_of_cons. by right.
Qed.
End TwilioFacts.

(** X17: [withWhatsAppPrefix] always returns a number that starts with
    [whatsapp:], and applying it twice is applying it once. *)
Theorem whatsapp_prefix_is_idempotent (number : string) :
  Js.startsWith (Twilio.withWhatsAppPrefix number) "whatsapp:" = true
  ∧ Twilio.withWhatsAppPrefix (Twilio.withWhatsAppPrefix number)
    = Twilio.withWhatsAppPrefix number.
Proof.
  assert (Js.startsWith (Twilio.withWhatsAppPrefix number) "whatsapp:" = true) as H.
  { unfold Twilio.withWhatsAppPrefix.
    destruct (Js.startsWith number "whatsapp:") eqn:E; [done|].
    apply prefixed_starts. }
  split; [done|].
  unfold Twilio.withWhatsAppPrefix at 1. by rewrite H.
Qed.

(** X18: the sender lookup returns a sid exactly when the list of
    senders could be fetched and the first entry whose [sender_id] is
    the prefixed number carries a sid, which is the one returned; when
    that first entry has no sid the lookup fails even if a later entry
    with the same [sender_id] has one. *)
Theorem sender_sid_is_of_first_match
    (resp : Err.Try (option (list (option Twilio.Sender)))) (from sid : string) :
  Twilio.findWhatsappSenderSid resp from = Err.Ok sid
  ↔ ∃ pre s post,
      resp = Err.Ok (Some (pre ++ Some s :: post))
      ∧ (∀ x, x ∈ pre → Twilio.isSender from x = false)
      ∧ Twilio.sender_id s = Some (Twilio.withWhatsAppPrefix from)
      ∧ Twilio.senderSid s = Some sid.
Proof.
  unfold Twilio.findWhatsappSenderSid.
  destruct resp as [[senders|]|e]; [| by split; [|intros (?&?&?&?&_)]
                                     | by split; [|intros (?&?&?&?&_)]].
  destruct (List.find (Twilio.isSender from) senders) as [x|] eqn:Hfind.
  - apply find_first in Hfind as (pre & post & -> & Hx & Hpre).
    destruct x as [s|]; [|done]. simpl in Hx. apply bool_decide_eq_true in Hx.
    split.
    + destruct (Twilio.senderSid s) as [sid'|] eqn:Hsid; [|done].
      intros [= <-]. exists pre, s, post. done.
    + intros (pre' & s' & post' & [= Heq] & Hpre' & Hid & Hsid).
      assert (List.find (Twilio.isSender from) (pre ++ Some s :: post) = Some (Some s'))
        as Hf.
      { rewrite Heq. apply find_first. exists pre', post'.
        split_and!; [done | simpl; by apply bool_decide_eq_true | done]. }
      assert (List.find (Twilio.isSender from) (pre ++ Some s :: post) = Some (Some s))
        as Hg.
      { apply find_first. exists pre, post.
        split_and!; [done | simpl; by apply bool_decide_eq_true | done]. }
      rewrite Hf in Hg. injection Hg as ->. by rewrite Hsid.
  - split; [done|].
    intros (pre & s & post & [= ->] & Hpre & Hid & Hsid).
    assert (List.find (Twilio.isSender from) (pre ++ Some s :: post) = Some (Some s))
      as Hg.
    { apply find_first. exists pre, post.
      split_and!; [done | simpl; by apply bool_decide_eq_true | done]. }
    by rewrite Hg in Hfind.
Qed.

(** * Templates *)

Section TemplateFacts.
Import Template View.

Lemma append_cons (c : ascii) (s t : string) : String c s +:+ t = String c (s +:+ t).
Proof. reflexivity. Qed.

Lemma append_nil (t : string) : "" +:+ t = t.
Proof. reflexivity. Qed.

Lemma word_not_space (c : ascii) : isWordChar c = true → Js.isSpace c = false.
Proof. destruct c as [[] [] [] [] [] [] [] []]; vm_compute; congruence. Qed.

Lemma space_not_word (c : ascii) : Js.isSpace c = true → isWordChar c = false.
Proof.
  intros Hs. destruct (isWordChar c) eqn:Hw; [|done].
  apply word_not_space in Hw. congruence.
Qed.

Lemma trimStart_length (s : string) :
  (String.length (Js.trimStart s) <= String.length s)%nat.
Proof.
  induction s as [|c s IH]; cbn [Js.trimStart String.length]; [done|].
  destruct (Js.isSpace c); cbn [String.length]; lia.
Qed.

Lemma takeWord_length (s : string) :
  (String.length (takeWord s).2 <= String.length s)%nat.
Proof.
  induction s as [|c s IH]; cbn [takeWord String.length]; [done|].
  destruct (isWordChar c); cbn [snd String.length]; lia.
Qed.

Lemma matchAt_shorter (s key rest : string) :
  matchAt s = Some (key, rest) → (String.length rest < String.length s)%nat.
Proof.
  unfold matchAt. intros H.
  repeat case_match; simplify_eq/=.
  match goal with
  | E : Js.trimStart (takeWord (Js.trimStart ?r)).2 = _ |- _ =>
      pose proof (trimStart_length (takeWord (Js.trimStart r)).2) as H1;
      pose proof (takeWord_length (Js.trimStart r)) as H2;
      pose proof (trimStart_length r) as H3;
      rewrite E in H1; simpl in H1
  end.
  lia.
Qed.

Lemma render_S ctx (f : nat) (s : string) :
  render (S f) ctx s
  = match matchAt s with
    | Some (key, rest) => Js.orElse (ctx key) "" +:+ render f ctx rest
    | None =>
        match s with
        | EmptyString => EmptyString
        | String c r => String c (render f ctx r)
        end
    end.
Proof. reflexivity. Qed.

(** Fuel beyond the length of the string changes nothing. *)
Lemma render_fuel ctx (f1 f2 : nat) (s : string) :
  (String.length s < f1)%nat → (String.length s < f2)%nat →
  render f1 ctx s = render f2 ctx s.
Proof.
  revert f2 s. induction f1 as [|f1 IH]; intros f2 s H1 H2; [lia|].
  destruct f2 as [|f2]; [lia|]. rewrite !render_S.
  destruct (matchAt s) as [[key rest]|] eqn:Hm.
  - apply matchAt_shorter in Hm. f_equal. apply IH; lia.
  - destruct s as [|c r]; [done|]. cbn [String.length] in *.
    f_equal. apply IH; lia.
Qed.

Lemma applyTemplate_match ctx s key rest :
  matchAt s = Some (key, rest) →
  applyTemplate s ctx = Js.orElse (ctx key) "" +:+ applyTemplate rest ctx.
Proof.
  intros Hm. unfold applyTemplate. rewrite (render_S ctx (String.length s)), Hm.
  apply matchAt_shorter in Hm. f_equal. apply render_fuel; lia.
Qed.

Lemma applyTemplate_char ctx c r :
  matchAt (String c r) = None →
  applyTemplate (String c r) ctx = String c (applyTemplate r ctx).
Proof.
  intros Hm. unfold applyTemplate.
  rewrite (render_S ctx (String.length (String c r))), Hm.
  reflexivity.
Qed.

Lemma noOpening_matchAt (s : string) : noOpening s = true → matchAt s = None.
Proof.
  destruct s as [|c s]; [done|]. unfold matchAt. cbn [noOpening].
  repeat case_match; simplify_eq/=; done.
Qed.

Lemma noOpening_tail c s : noOpening (String c s) = true → noOpening s = true.
Proof. cbn [noOpening]. repeat case_match; simplify_eq/=; done. Qed.

Lemma noBrace_matchAt c s : Ascii.eqb c "{" = false → matchAt (String c s) = None.
Proof.
  intros Hc. unfold matchAt.
  repeat case_match; simplify_eq/=; done.
Qed.

Lemma trimStart_space_app (a x : string) :
  allSpace a = true → Js.trimStart (a +:+ x) = Js.trimStart x.
Proof.
  induction a as [|c a IH]; [done|]. cbn [allSpace].
  intros [Hc Ha]%andb_true_iff. rewrite append_cons. cbn [Js.trimStart].
  rewrite Hc. by apply IH.
Qed.

Lemma takeWord_app (key x : string) :
  allWord key = true → startsNonWord x = true → takeWord (key +:+ x) = (key, x).
Proof.
  intros Hk Hx. induction key as [|c key IH].
  - rewrite append_nil. destruct x as [|d x]; [done|].
    cbn [takeWord startsNonWord] in *.
    by destruct (isWordChar d).
  - cbn [allWord] in Hk. apply andb_true_iff in Hk as [Hc Hk].
    rewrite append_cons. cbn [takeWord]. rewrite Hc, (IH Hk). done.
Qed.

Lemma closing_nonword (b post : string) :
  allSpace b = true → startsNonWord (b +:+ "}}" +:+ post) = true.
Proof.
  destruct b as [|c b]; [done|]. cbn [allSpace].
  intros [Hc _]%andb_true_iff. rewrite append_cons. cbn [startsNonWord].
  by rewrite (space_not_word c Hc).
Qed.

(** A well-formed placeholder is matched whole. *)
Lemma matchAt_placeholder (a key b post : string) :
  allSpace a = true → allSpace b = true → allWord key = true → key ≠ "" →
  matchAt ("{{" +:+ a +:+ key +:+ b +:+ "}}" +:+ post) = Some (key, post).
Proof.
  intros Ha Hb Hk Hne.
  change ("{{" +:+ a +:+ key +:+ b +:+ "}}" +:+ post)
    with (String "{" (String "{" (a +:+ key +:+ b +:+ "}}" +:+ post))).
  cbn [matchAt].
  rewrite (trimStart_space_app a _ Ha).
  assert (Js.trimStart (key +:+ b +:+ "}}" +:+ post) = key +:+ b +:+ "}}" +:+ post)
    as ->.
  { destruct key as [|c key]; [done|]. cbn [allWord] in Hk.
    apply andb_true_iff in Hk as [Hc _]. rewrite append_cons.
    cbn [Js.trimStart]. by rewrite (word_not_space c Hc). }
  rewrite (takeWord_app key _ Hk (closing_nonword b post Hb)). cbn [fst snd].
  rewrite (trimStart_space_app b _ Hb).
  change ("}}" +:+ post) with (String "}" (String "}" post)).
  cbn [Js.trimStart]. destruct key; [done|]. done.
Qed.

(** Text before the first brace is copied. *)
Lemma applyTemplate_prefix ctx (pre s : string) :
  noBrace pre = true → applyTemplate (pre +:+ s) ctx = pre +:+ applyTemplate s ctx.
Proof.
  induction pre as [|c pre IH]; [done|]. cbn [noBrace].
  intros [Hc Hpre]%andb_true_iff. apply negb_true_iff in Hc.
  rewrite !append_cons, applyTemplate_char by by apply noBrace_matchAt.
  by rewrite IH.
Qed.

Lemma applyTemplate_plain ctx (s : string) :
  noOpening s = true → applyTemplate s ctx = s.
Proof.
  induction s as [|c s IH]; [done|]. intros Hs.
  rewrite applyTemplate_char by by apply noOpening_matchAt.
  by rewrite IH by by eapply noOpening_tail.
Qed.
End TemplateFacts.

(** X19: a template in which ["{{"] does not occur is returned as it
    is, whatever the context holds. *)
Theorem template_without_placeholder_is_unchanged
    (str : string) (ctx : string → option string)
    (Hplain : Template.noOpening str = true) :
  Template.applyTemplate str ctx = str.
Proof. by apply applyTemplate_plain. Qed.

(** X20: a placeholder is replaced by the value of its key: for text
    [pre] without a brace, a key made of word characters, and optional
    white space around the key inside the braces, the template
    [pre {{ key }} post] renders as [pre], then the context's value for
    the key (nothing when the context has none), then the rendering of
    [post]. *)
Theorem template_substitutes_placeholder
    (pre a key b post : string) (ctx : string → option string)
    (Hpre : Template.noBrace pre = true)
    (Ha : Template.allSpace a = true) (Hb : Template.allSpace b = true)
    (Hkey : Template.allWord key = true) (Hne : key ≠ "") :
  Template.applyTemplate (pre +:+ "{{" +:+ a +:+ key +:+ b +:+ "}}" +:+ post) ctx
  = pre +:+ Js.orElse (ctx key) "" +:+ Template.applyTemplate post ctx.
Proof.
  rewrite applyTemplate_prefix by done. f_equal.
  apply applyTemplate_match. by apply matchAt_placeholder.
Qed.

(** * Webhook ingress *)

Section WebhookFacts.
Import Err Webhook.

Lemma lookups_respond (l : list Config.Event) :
  List.filter isRespond (Lookup <$> l) = [].
Proof. induction l as [|x l IH]; simpl; done. Qed.

Lemma lookups_create (l : list Config.Event) :
  List.filter isCreate (Lookup <$> l) = [].
Proof. induction l as [|x l IH]; simpl; done. Qed.

Lemma lookups_no_create (l : list Config.Event) from to body :
  CreateMessage from to body ∉ Lookup <$> l.
Proof. intros (x & ? & _)%list_elem_of_fmap. done. Qed.

End WebhookFacts.

(** X21: the webhook handler acknowledges every request: whatever the
    form holds, whatever the configuration and the command give, and
    whether or not sending the auto-reply fails, it answers exactly
    once, last, with the empty [<Response></Response>] document as
    [text/xml]. It sends at most one reply, never an empty one, from
    the address the message was sent to, to the address it came from.
    With a reply text given on the command line the configuration is not
    consulted and that text is the reply. *)
Theorem webhook_always_acknowledges
    (verbose : bool) (autoReply : option string)
    (inherited : string → option string) (reply : option Config.ReplyConfig)
    (exec : string → list string → Err.Try string) (create : Err.Try unit)
    (form : Webhook.Form) :
  let log := Webhook.handle verbose autoReply inherited reply exec create form in
  last log = Some (Webhook.Respond "text/xml" "<Response></Response>")
  ∧ List.filter Webhook.isRespond log
    = [Webhook.Respond "text/xml" "<Response></Response>"]
  ∧ (length (List.filter Webhook.isCreate log) <= 1)%nat
  ∧ (∀ from to body, Webhook.CreateMessage from to body ∈ log →
       from = Webhook.formTo form ∧ to = Webhook.formFrom form ∧ body ≠ "")
  ∧ (Js.truthy autoReply = true →
     List.filter Webhook.isLookup log = []
     ∧ Webhook.CreateMessage (Webhook.formTo form) (Webhook.formFrom form)
         (Js.orElse autoReply "") ∈ log).
Proof.
  intros log. unfold log, Webhook.handle.
  set (inb := if verbose then [_] else []).
  assert (List.filter Webhook.isRespond inb = []
          ∧ List.filter Webhook.isCreate inb = []
          ∧ List.filter Webhook.isLookup inb = []
          ∧ ∀ from to body, Webhook.CreateMessage from to body ∉ inb)
    as (Hi1 & Hi2 & Hi3 & Hi4).
  { unfold inb. destruct verbose; simpl; split_and!; try done;
      intros from to body; rewrite ?elem_of_cons, ?elem_of_nil; naive_solver. }
  clearbody inb.
  set (found := if Js.truthy autoReply then _ else _).
  assert (Js.truthy autoReply = true → found = (autoReply, [])) as Hauto.
  { unfold found. by intros ->. }
  clearbody found. destruct found as [replyText lookups].
  set (replying := if Js.truthy replyText then _ else []).
  assert (List.filter Webhook.isRespond replying = []
          ∧ (length (List.filter Webhook.isCreate replying) <= 1)%nat
          ∧ List.filter Webhook.isLookup replying = []
          ∧ (∀ from to body, Webhook.CreateMessage from to body ∈ replying →
               from = Webhook.formTo form ∧ to = Webhook.formFrom form
               ∧ body ≠ "")
          ∧ (Js.truthy replyText = true →
             Webhook.CreateMessage (Webhook.formTo form) (Webhook.formFrom form)
               (Js.orElse replyText "") ∈ replying))
    as (Hr1 & Hr2 & Hr3 & Hr4 & Hr5).
  { unfold replying. destruct (Js.truthy replyText) eqn:Hreply.
    - pose proof (truthy_nonempty replyText Hreply) as Hne.
      destruct create, verbose; simpl; split_and!; try done; try lia;
        try (intros _; apply list_elem_of_here);
        intros from to body; rewrite ?elem_of_cons, ?elem_of_nil;
        intros Hin; destruct_or?; simplify_eq/=; done.
    - simpl. split_and!; try done; try lia.
      intros from to body Hin. by apply elem_of_nil in Hin. }
  clearbody replying.
  split_and!.
  - by rewrite !app_assoc, last_snoc.
  - by rewrite !List.filter_app, Hi1, lookups_respond, Hr1.
  - rewrite !List.filter_app, Hi2, lookups_create, !length_app. simpl. lia.
  - intros from to body. rewrite !elem_of_app, list_elem_of_singleton.
    intros [Hin|[Hin|[Hin|Hin]]]; [by apply Hi4 in Hin
      | by apply lookups_no_create in Hin | by apply Hr4 | done].
  - intros Ha. specialize (Hauto Ha). simplify_eq. split.
    + by rewrite !List.filter_app, Hi3, Hr3.
    + rewrite !elem_of_app. right; right; left. by apply Hr5.
Qed.

(** * One-off send over the session transport *)

Section WebSendFacts.
Import Err WebSend.

Lemma guards_not_send (l : list Media.Effect) :
  List.filter isSend (Guard <$> l) = [].
Proof. induction l as [|x l IH]; simpl; done. Qed.

Lemma guards_not_close (l : list Media.Effect) :
  List.filter isClose (Guard <$> l) = [].
Proof. induction l as [|x l IH]; simpl; done. Qed.

(** What the [try] block of [sendMessageWeb] leaves in the trace. *)
Lemma attempt_trace env to body mediaUrl :
  let '(result, log) := attempt env to body mediaUrl in
  List.filter isClose log = []
  ∧ (length (List.filter isSend log) <= 1)%nat
  ∧ (∀ sent, result = Ok sent →
       connection env = Login.Opened
       ∧ toJid sent = toWhatsappJid env to
       ∧ (∃ id, send env = Ok id ∧ messageId sent = Js.orElse id "unknown")
       ∧ ∃ payload,
           List.filter isSend log = [SendMessage (toWhatsappJid env to) payload]
           ∧ (Js.truthy mediaUrl = false → payload = Text body)
           ∧ (Js.truthy mediaUrl = true →
              ∃ media,
                (Media.loadWebMedia (world env) (Js.orElse mediaUrl "")).1
                = Ok media
                ∧ payload
                  = Image (Media.buffer media)
                      (if Js.truthy (Some body) then Some body else None)
                      (Media.loadedType media)))
  ∧ (∀ e, connection env = Login.Closed e →
       result = Throws e ∧ List.filter isSend log = []
       ∧ List.filter isGuard log = [])
  ∧ (∀ e, connection env = Login.Opened → Js.truthy mediaUrl = true →
       (Media.loadWebMedia (world env) (Js.orElse mediaUrl "")).1 = Throws e →
       result = Throws e ∧ List.filter isSend log = [])
  ∧ (Js.truthy mediaUrl = false → List.filter isGuard log = []).
Proof.
  unfold attempt.
  destruct (connection env) as [|e0] eqn:Hconn.
  2:{ simpl. split_and!; try done; try lia. by intros e [= ->]. }
  destruct (Js.truthy mediaUrl) eqn:Hmedia.
  - destruct (Media.loadWebMedia (world env) (Js.orElse mediaUrl ""))
      as [[media|e1] effects] eqn:Hload.
    + destruct (send env) as [id|e2] eqn:Hsend, (presence env);
        cbn [fst snd]; rewrite ?List.filter_app; cbn [List.filter app isClose isSend isGuard];
        rewrite ?List.filter_app, ?guards_not_send, ?guards_not_close;
        cbn [List.filter app isClose isSend isGuard length];
        (split_and!; try done; try lia;
         intros sent [= <-]; simpl; split_and!; try done; eauto 10;
         eexists; split_and!; first [reflexivity | done | eauto]).
    + destruct (presence env);
        cbn [fst snd]; rewrite ?List.filter_app; cbn [List.filter app isClose isSend isGuard];
        rewrite ?List.filter_app, ?guards_not_send, ?guards_not_close;
        cbn [List.filter app isClose isSend isGuard length];
        (split_and!; try done; try lia; by intros e9 _ _ [= ->]).
  - destruct (send env) as [id|e2] eqn:Hsend, (presence env);
      cbn [fst snd]; rewrite ?List.filter_app; cbn [List.filter app isClose isSend isGuard length];
      (split_and!; try done; try lia;
       intros sent [= <-]; simpl; split_and!; try done; eauto 10;
         eexists; split_and!; first [reflexivity | done | eauto]).
Qed.
End WebSendFacts.

(** X22: a one-off send over the session transport closes its socket
    exactly once, after everything else it did on the socket, whether it
    returns or throws. It sends at most one message. When it returns,
    the connection had opened, the one message went to the recipient's
    chat address, its content is the text when no media reference is
    given and otherwise the loaded image with the text as caption, and
    the result carries that address and the id of the sent message
    (["unknown"] without one). When the connection closed before
    opening, or the media could not be loaded, it throws that reason and
    nothing was sent. *)
Theorem web_send_closes_socket_once
    (env : WebSend.Env) (to body : string) (mediaUrl : option string) :
  let result := (WebSend.sendMessageWeb env to body mediaUrl).1 in
  let log := (WebSend.sendMessageWeb env to body mediaUrl).2 in
  List.filter WebSend.isClose log = [WebSend.WsClose]
  ∧ (∃ before after, log = WebSend.CreateSocket false :: before
                             ++ WebSend.WsClose :: after
       ∧ List.filter WebSend.isSend after = []
       ∧ List.filter WebSend.isGuard after = []
       ∧ (after = [] ↔ ∃ u, WebSend.close env = Err.Ok u))
  ∧ (length (List.filter WebSend.isSend log) <= 1)%nat
  ∧ (∀ sent, result = Err.Ok sent →
       WebSend.connection env = Login.Opened
       ∧ WebSend.toJid sent = WebSend.toWhatsappJid env to
       ∧ (∃ id, WebSend.send env = Err.Ok id
                ∧ WebSend.messageId sent = Js.orElse id "unknown")
       ∧ ∃ payload,
           List.filter WebSend.isSend log
           = [WebSend.SendMessage (WebSend.toWhatsappJid env to) payload]
           ∧ (Js.truthy mediaUrl = false → payload = WebSend.Text body)
           ∧ (Js.truthy mediaUrl = true →
              ∃ media,
                (Media.loadWebMedia (WebSend.world env) (Js.orElse mediaUrl "")).1
                = Err.Ok media
                ∧ payload
                  = WebSend.Image (Media.buffer media)
                      (if Js.truthy (Some body) then Some body else None)
                      (Media.loadedType media)))
  ∧ (∀ e, WebSend.connection env = Login.Closed e →
       result = Err.Throws e ∧ List.filter WebSend.isSend log = []
       ∧ List.filter WebSend.isGuard log = [])
  ∧ (∀ e, WebSend.connection env = Login.Opened → Js.truthy mediaUrl = true →
       (Media.loadWebMedia (WebSend.world env) (Js.orElse mediaUrl "")).1
       = Err.Throws e →
       result = Err.Throws e ∧ List.filter WebSend.isSend log = []).
Proof.
  intros result log. unfold result, log, WebSend.sendMessageWeb.
  pose proof (attempt_trace env to body mediaUrl) as Htrace.
  destruct (WebSend.attempt env to body mediaUrl) as [res tr].
  destruct Htrace as (Hclose & Hone & Hok & Hclosed & Hmedia & _).
  cbn [fst snd].
  assert (List.filter WebSend.isSend
            (WebSend.CreateSocket false :: tr ++ WebSend.WsClose ::
               match WebSend.close env with
               | Err.Ok _ => []
               | Err.Throws e =>
                   [WebSend.LogVerbose ("Socket close failed: " +:+ Err.toString e)]
               end) = List.filter WebSend.isSend tr) as Hsends.
  { cbn [List.filter WebSend.isSend]. rewrite List.filter_app.
    destruct (WebSend.close env); simpl; by rewrite app_nil_r. }
  rewrite Hsends.
  assert (List.filter WebSend.isGuard
            (WebSend.CreateSocket false :: tr ++ WebSend.WsClose ::
               match WebSend.close env with
               | Err.Ok _ => []
               | Err.Throws e =>
                   [WebSend.LogVerbose ("Socket close failed: " +:+ Err.toString e)]
               end) = List.filter WebSend.isGuard tr) as Hguards.
  { cbn [List.filter WebSend.isGuard]. rewrite List.filter_app.
    destruct (WebSend.close env); simpl; by rewrite app_nil_r. }
  rewrite Hguards.
  split_and!.
  - cbn [List.filter WebSend.isClose]. rewrite List.filter_app, Hclose.
    by destruct (WebSend.close env).
  - eexists tr, _. split; [reflexivity|].
    destruct (WebSend.close env) as [u|e]; simpl; split_and!; try done;
      naive_solver.
  - done.
  - done.
  - done.
  - done.
Qed.

(** * The relay and login commands *)

Section CliFacts.
Import Err Cli.

Lemma parsePreference_auto (p : string) :
  parsePreference p = Some Selector.Auto ↔ p = "auto".
Proof.
  unfold parsePreference. split.
  - destruct (String.eqb_spec p "auto"); [done|].
    by repeat case_match.
  - by intros ->.
Qed.

Lemma parsePreference_web (p : string) :
  p = "web" → parsePreference p = Some (Selector.Explicit Selector.web).
Proof. by intros ->. Qed.

Lemma parsePreference_twilio (p : string) :
  p = "twilio" → parsePreference p = Some (Selector.Explicit Selector.twilio).
Proof. by intros ->. Qed.

Lemma parsePreference_words (p : string) :
  is_Some (parsePreference p) ↔ p = "auto" ∨ p = "web" ∨ p = "twilio".
Proof.
  unfold parsePreference. split.
  - destruct (String.eqb_spec p "auto"); [by left|].
    destruct (String.eqb_spec p "web"); [by right; left|].
    destruct (String.eqb_spec p "twilio"); [by right; right|].
    intros [? ?]; done.
  - intros [-> | [-> | ->]]; by eexists.
Qed.

Lemma startsWeb_app (l k : list Event) :
  startsWeb (l ++ k) = startsWeb l || startsWeb k.
Proof. apply existsb_app. Qed.

Lemma startsTwilio_app (l k : list Event) :
  startsTwilio (l ++ k) = startsTwilio l || startsTwilio k.
Proof. apply existsb_app. Qed.
End CliFacts.

(** X23: the relay command refuses bad options before touching either
    transport: with a provider other than auto, web and twilio, an
    interval that is not a positive integer or a lookback that is not a
    non-negative integer, it prints one error, exits with code 1 and
    starts neither relay; with good options it always goes on to one of
    the transports. The poll relay is only ever started with the
    interval and lookback given, the interval positive and the lookback
    not negative. *)
Theorem relay_validates_before_starting
    (a : Cli.Around) (providerPref : string) (interval lookback : option Z) :
  let run := Cli.relayAction a providerPref interval lookback in
  let valid :=
    (providerPref = "auto" ∨ providerPref = "web" ∨ providerPref = "twilio")
    ∧ (∃ i, interval = Some i ∧ 0 < i)
    ∧ (∃ l, lookback = Some l ∧ 0 <= l) in
  (¬ valid →
   run.1 = Dispatch.Exited 1
   ∧ (∃ line, run.2 = [Cli.RuntimeError line])
   ∧ Cli.startsWeb run.2 = false ∧ Cli.startsTwilio run.2 = false
   ∧ (Cli.EnsureTwilioEnv ∉ run.2))
  ∧ (valid → Cli.MonitorWebProvider ∈ run.2 ∨ Cli.EnsureTwilioEnv ∈ run.2)
  ∧ (∀ i l, Cli.MonitorTwilio i l ∈ run.2 →
       interval = Some i ∧ lookback = Some l ∧ 0 < i ∧ 0 <= l
       ∧ Cli.twilioEnv a = None ∧ run.1 = Dispatch.Returned).
Proof.
  intros run valid. unfold run, valid, Cli.relayAction.
  pose proof (parsePreference_words providerPref) as Hwords.
  destruct (Cli.parsePreference providerPref) as [pref|].
  2:{ cbn [fst snd]. split_and!.
      - intros _. split_and!; [done | by eexists | done | done |].
        rewrite list_elem_of_singleton. done.
      - intros (Hp & _). apply Hwords in Hp. by destruct Hp.
      - intros i l. rewrite list_elem_of_singleton. done. }
  assert (providerPref = "auto" ∨ providerPref = "web" ∨ providerPref = "twilio")
    as Hp by (apply Hwords; by eexists).
  clear Hwords.
  destruct interval as [i0|].
  2:{ cbn [fst snd]. split_and!.
      - intros _. split_and!; [done | by eexists | done | done |].
        rewrite list_elem_of_singleton. done.
      - intros (_ & (i & ? & _) & _); done.
      - intros i l. rewrite list_elem_of_singleton. done. }
  destruct (Z.leb_spec i0 0).
  { cbn [fst snd]. split_and!.
    - intros _. split_and!; [done | by eexists | done | done |].
      rewrite list_elem_of_singleton. done.
    - intros (_ & (i & ? & ?) & _); simplify_eq; lia.
    - intros i l. rewrite list_elem_of_singleton. done. }
  destruct lookback as [l0|].
  2:{ cbn [fst snd]. split_and!.
      - intros _. split_and!; [done | by eexists | done | done |].
        rewrite list_elem_of_singleton. done.
      - intros (_ & _ & (l & ? & _)); done.
      - intros i l. rewrite list_elem_of_singleton. done. }
  destruct (Z.ltb_spec l0 0).
  { cbn [fst snd]. split_and!.
    - intros _. split_and!; [done | by eexists | done | done |].
      rewrite list_elem_of_singleton. done.
    - intros (_ & _ & (l & ? & ?)); simplify_eq; lia.
    - intros i l. rewrite list_elem_of_singleton. done. }
  split_and!.
  - intros Hn. exfalso. apply Hn. split_and!; [done | by eexists | by eexists].
  - intros _.
    destruct ((Selector.pickProvider (Cli.home a) (Cli.disk a) pref).1),
      (Cli.webRelay a), (Cli.twilioEnv a), (String.eqb providerPref "auto");
      cbn [fst snd];
      rewrite ?elem_of_app, ?elem_of_cons; auto 10.
  - intros i l.
    destruct ((Selector.pickProvider (Cli.home a) (Cli.disk a) pref).1),
      (Cli.webRelay a), (Cli.twilioEnv a) eqn:Henv,
      (String.eqb providerPref "auto");
      cbn [fst snd];
      rewrite ?elem_of_app, ?elem_of_cons, ?elem_of_nil;
      intros Hin; destruct_or?; simplify_eq/=; done.
Qed.

(** X24: the relay command falls back from the session relay to the
    poll relay only when the provider was left to be chosen: both are
    started exactly when the preference is auto, the credential
    directory exists and the session relay throws, and then the
    fall-back is announced between the two. With the provider web the
    poll relay is never started, and a throwing session relay ends the
    command with code 1 and the reason; with the provider twilio the
    session relay is never started. Left to choose without a credential
    directory, the command goes to the poll relay without trying the
    session. *)
Theorem relay_falls_back_only_when_auto
    (a : Cli.Around) (providerPref : string) (i l : Z)
    (Hi : 0 < i) (Hl : 0 <= l) :
  let run := Cli.relayAction a providerPref (Some i) (Some l) in
  (Cli.startsWeb run.2 = true ∧ Cli.EnsureTwilioEnv ∈ run.2
   ↔ providerPref = "auto"
     ∧ Selector.webAuthExists (Cli.home a) (Cli.disk a) = true
     ∧ ∃ err, Cli.webRelay a = Err.Throws err)
  ∧ (Cli.startsWeb run.2 = true → Cli.EnsureTwilioEnv ∈ run.2 →
     ∃ before after,
       run.2 = before ++ Cli.MonitorWebProvider
                 :: Cli.RuntimeError
                      "Web session unavailable; falling back to twilio."
                 :: Cli.EnsureTwilioEnv :: after
       ∧ Cli.startsTwilio before = false)
  ∧ (providerPref = "web" →
     Cli.startsWeb run.2 = true ∧ (Cli.EnsureTwilioEnv ∉ run.2)
     ∧ Cli.startsTwilio run.2 = false
     ∧ ∀ err, Cli.webRelay a = Err.Throws err →
         run.1 = Dispatch.Exited 1
         ∧ last run.2
           = Some (Cli.RuntimeError ("Web relay failed: " +:+ Err.toString err)))
  ∧ (providerPref = "twilio" →
     Cli.startsWeb run.2 = false ∧ Cli.EnsureTwilioEnv ∈ run.2)
  ∧ (providerPref = "auto" →
     Selector.webAuthExists (Cli.home a) (Cli.disk a) = false →
     Cli.startsWeb run.2 = false ∧ Cli.EnsureTwilioEnv ∈ run.2)
  ∧ (Cli.startsTwilio run.2 = true ↔
     Cli.EnsureTwilioEnv ∈ run.2 ∧ Cli.twilioEnv a = None).
Proof.
  intros run. unfold run, Cli.relayAction.
  pose proof (parsePreference_auto providerPref) as Hauto.
  pose proof (parsePreference_web providerPref) as Hweb.
  pose proof (parsePreference_twilio providerPref) as Htwilio.
  destruct (Z.leb_spec i 0); [lia|].
  destruct (Z.ltb_spec l 0); [lia|].
  destruct (Cli.parsePreference providerPref) as [[[]|]|] eqn:Hpref;
    cbn [Selector.pickProvider fst snd].
  - (* twilio *)
    destruct (Cli.twilioEnv a) eqn:Henv; cbn [fst snd app];
      (split_and!;
       [ split; [by intros [[=] _] | intros [Ha _]; by apply Hauto in Ha]
       | by intros [=]
       | by intros ?%Hweb
       | intros _; split; [done | apply list_elem_of_here]
       | intros ?%Hauto; done
       | split; [intros Hst; split; [apply list_elem_of_here | done]
                | by intros [_ ?]] ]).
  - (* web *)
    destruct (String.eqb_spec providerPref "auto") as [Ha|Hna];
      [by apply Hauto in Ha|].
    destruct (Cli.webRelay a) as [u|err] eqn:Hrelay; cbn [fst snd app];
      (split_and!;
       [ split; [intros [_ Hin]; exfalso; revert Hin;
                 rewrite ?elem_of_cons, ?elem_of_nil; naive_solver
                | by intros [? _]]
       | intros _; rewrite ?elem_of_cons, ?elem_of_nil; naive_solver
       | intros _; split_and!;
         [ done | rewrite ?elem_of_cons, ?elem_of_nil; naive_solver | done
         | intros err' [=]; subst; done ]
       | by intros ?%Htwilio
       | by intros ?%Hauto
       | split; [by intros [=]
                | intros [Hin _]; exfalso; revert Hin;
                  rewrite ?elem_of_cons, ?elem_of_nil; naive_solver] ]).
  - (* auto *)
    assert (providerPref = "auto") as -> by by apply Hauto.
    cbn [String.eqb Ascii.eqb Bool.eqb].
    unfold Selector.webAuthExists.
    destruct (Fs.access (Cli.disk a) (Fs.WA_WEB_AUTH_DIR (Cli.home a)))
      eqn:Hdir; cbn [fst snd app].
    + destruct (Cli.webRelay a) as [u|err] eqn:Hrelay,
        (Cli.twilioEnv a) as [code|] eqn:Henv; cbn [fst snd app];
        (split_and!;
         [ split; [intros [_ Hin]; split_and!; try done; try (by eexists);
                   exfalso; revert Hin;
                   rewrite ?elem_of_cons, ?elem_of_nil; naive_solver
                  | intros (_ & _ & [err' Herr]);
                    first [done | split; [done|]; rewrite ?elem_of_cons; auto 10]]
         | intros _ Hin;
           first [ by (exfalso; revert Hin;
                       rewrite ?elem_of_cons, ?elem_of_nil; naive_solver)
                 | by (eexists [_], _; split; [reflexivity | done]) ]
         | done | done | done
         | split; [ intros Hst; first [done | split; [|done];
                                       rewrite ?elem_of_cons; auto 10]
                  | intros [Hin ?]; first [done | exfalso; revert Hin;
                       rewrite ?elem_of_cons, ?elem_of_nil; naive_solver] ] ]).
    + destruct (Cli.twilioEnv a) as [code|] eqn:Henv; cbn [fst snd app];
        (split_and!;
         [ split; [by intros [[=] _] | by intros (_ & [=] & _)]
         | by intros [=]
         | done | done
         | intros _ _; split; [done | apply list_elem_of_here]
         | split; [ intros Hst; first [done | split; [|done];
                                       apply list_elem_of_here]
                  | by intros [_ ?] ] ]).
  - (* not a provider *)
    cbn [fst snd].
    split_and!.
    + split; [by intros [[=] _] | intros [Ha _]; by apply Hauto in Ha].
    + by intros [=].
    + by intros ?%Hweb.
    + by intros ?%Htwilio.
    + by intros ?%Hauto.
    + split; [by intros [=] | intros [Hin _]].
      apply list_elem_of_singleton in Hin. done.
Qed.


(** X25: the login command returns exactly when the login links: the
    first connection opens, or it closes with code 515 and the retry
    opens. Otherwise it exits with code 1, after everything the login
    did, with one last line that names the reason: the retry's own
    error after a failed restart, the logged-out notice after a close
    with code 401, and the formatted close reason after any other
    close. *)
Theorem login_command_exits_on_failure
    (home : Fs.Path) (fs : gset Fs.Path) (first retry : Login.Connection) :
  let run := Cli.loginAction home fs first retry in
  let login := Login.loginWeb home fs first retry in
  (run.1.1 = Dispatch.Returned
   ↔ first = Login.Opened
     ∨ ∃ e, first = Login.Closed e
            ∧ Login.closeCode e = Some Login.restartRequired
            ∧ retry = Login.Opened)
  ∧ (run.1.1 = Dispatch.Returned ∨ run.1.1 = Dispatch.Exited 1)
  ∧ run.1.2 = Login.disk login
  ∧ (run.1.1 = Dispatch.Returned → run.2 = Cli.LoginWeb <$> Login.events login)
  ∧ (run.1.1 = Dispatch.Exited 1 →
     ∃ err, Login.result login = Err.Throws err
       ∧ run.2 = (Cli.LoginWeb <$> Login.events login)
                   ++ [Cli.RuntimeError ("Web login failed: " +:+ Err.toString err)])
  ∧ (∀ e e2, first = Login.Closed e →
       Login.closeCode e = Some Login.restartRequired →
       retry = Login.Closed e2 →
       run.1.1 = Dispatch.Exited 1
       ∧ last run.2
         = Some (Cli.RuntimeError ("Web login failed: " +:+ Err.toString e2)))
  ∧ (∀ e, first = Login.Closed e →
       Login.closeCode e = Some Login.loggedOut →
       run.1.1 = Dispatch.Exited 1
       ∧ last run.2
         = Some (Cli.RuntimeError
                   "Web login failed: Error: Session logged out; cache cleared. Re-run login."))
  ∧ (∀ e, first = Login.Closed e →
       Login.closeCode e ≠ Some Login.restartRequired →
       Login.closeCode e ≠ Some Login.loggedOut →
       run.1.1 = Dispatch.Exited 1
       ∧ last run.2
         = Some (Cli.RuntimeError
                   ("Web login failed: Error: " +:+ Err.formatError e))).
Proof.
  intros run login. unfold run, login, Cli.loginAction, Login.loginWeb.
  destruct first as [|e];
    [| case_bool_decide as H515;
       [destruct retry as [|e2] | case_bool_decide as H401]];
    cbn [Login.result Login.disk Login.events fst snd];
    rewrite ?last_snoc;
    (split_and!;
     first [ done | by left | by right | naive_solver
           | by (intros _; eexists)
           | by (intros; simplify_eq) ]).
Qed.

(** * The identity line of the session *)

(** X26: the identity line that [logWebSelfId] prints depends on the
    stored chat address alone: when a readable [creds.json] holds a
    non-empty address, the line is the number that address maps to, or
    ["unknown"], followed by the address in brackets; in every other
    case (no file, an unreadable file, no address or an empty one) it
    is just ["unknown"]. The provider prefix comes first when asked
    for. [readWebSelfId] reports a number only for such a stored
    address. *)
Theorem web_self_id_line_shows_stored_address
    (home : Fs.Path) (fs : gset Fs.Path) (creds : Err.Try (option string))
    (jidToE164 : string → option string) (includeProviderPrefix : bool) :
  let line := Cli.logWebSelfId home fs creds jidToE164 includeProviderPrefix in
  let prefix := if includeProviderPrefix then "Web Provider: " else "" in
  let stored :=
    if Fs.access fs (Fs.credsPath home)
    then match creds with Err.Ok (Some jid) => if Js.truthy (Some jid) then Some jid else None
                     | _ => None end
    else None in
  line = prefix +:+ match stored with
                    | Some jid =>
                        Js.orElse (jidToE164 jid) "unknown"
                          +:+ " (jid " +:+ jid +:+ ")"
                    | None => "unknown"
                    end
  ∧ (Cli.readWebSelfId home fs creds jidToE164).2
    = (if Fs.access fs (Fs.credsPath home)
       then match creds with Err.Ok jid => jid | Err.Throws _ => None end
       else None)
  ∧ (∀ e164, (Cli.readWebSelfId home fs creds jidToE164).1 = Some e164 →
       ∃ jid, stored = Some jid ∧ jidToE164 jid = Some e164).
Proof.
  intros line prefix stored.
  unfold line, prefix, stored, Cli.logWebSelfId, Cli.readWebSelfId.
  destruct (Fs.access fs (Fs.credsPath home)); cbn [negb];
    [|split_and!; done].
  destruct creds as [[[|c jid]|]|e]; cbn [Js.truthy Js.orElse fst snd];
    [split_and!; done | | split_and!; done | split_and!; done].
  split_and!.
  - destruct (jidToE164 (String c jid)) as [[|]|]; reflexivity.
  - done.
  - intros e164 He. eauto.
Qed.

(** * Configured replies *)


Section ConfigFacts.
Import Err Config.

(** In command mode a reply is the trimmed output of the command. *)
Lemma command_reply_is_output inherited cfg exec ctx s :
  mode cfg = "command" →
  (getReplyFromConfig inherited (Some cfg) exec ctx).1 = Some s →
  ∃ file args out, exec file args = Ok out ∧ s = Js.trim out.
Proof.
  intros Hmode. unfold getReplyFromConfig. rewrite Hmode.
  cbn [andb String.eqb Ascii.eqb Bool.eqb].
  destruct (command cfg) as [[|first others]|]; [done| |done].
  match goal with |- context [exec ?f ?a] =>
    destruct (exec f a) as [out|e] eqn:Hexec end; [|done].
  intros [= <-]. eauto.
Qed.
End ConfigFacts.

(** X28: when the configured command fails, or prints nothing but white
    space, the webhook handler sends no reply and still acknowledges
    the request. *)
Theorem webhook_silent_when_command_gives_nothing
    (verbose : bool) (inherited : string → option string)
    (cfg : Config.ReplyConfig)
    (exec : string → list string → Err.Try string) (create : Err.Try unit)
    (form : Webhook.Form)
    (Hmode : Config.mode cfg = "command")
    (Hexec : ∀ file args out, exec file args = Err.Ok out → Js.trim out = "") :
  let log := Webhook.handle verbose None inherited (Some cfg) exec create form in
  List.filter Webhook.isCreate log = []
  ∧ last log = Some (Webhook.Respond "text/xml" "<Response></Response>").
Proof.
  intros log. unfold log, Webhook.handle. cbn [Js.truthy].
  pose proof (command_reply_is_output inherited cfg exec
                (Template.mkContext (Webhook.formBody form) (Webhook.formFrom form)
                   (Webhook.formTo form) (Webhook.formMessageSid form))) as Hreply.
  destruct (Config.getReplyFromConfig inherited (Some cfg) exec _)
    as [replyText lookups].
  assert (Js.truthy replyText = false) as ->.
  { destruct replyText as [s|]; [|done].
    destruct (Hreply s Hmode eq_refl) as (file & args & out & Hout & ->).
    by rewrite (Hexec _ _ _ Hout). }
  split.
  - rewrite !List.filter_app, lookups_create. by destruct verbose.
  - by rewrite !app_assoc, last_snoc.
Qed.

(** * The properties above at sample inputs *)


(** X5 at Scenario B: ["delivered"] is the third status seen, and the
    last. *)
Lemma wait_scenario_B_stops_at_delivered :
  ∃ o, Dispatch.waitForFinalStatus 0 20 2 Samples.scenarioB = Some o
       ∧ Dispatch.observed (Dispatch.events o) !! 2%nat = Some "delivered"
       ∧ Dispatch.isTerminal "delivered" = true
       ∧ 3%nat = length (Dispatch.observed (Dispatch.events o)).
Proof.
  destruct (Dispatch.waitForFinalStatus 0 20 2 Samples.scenarioB) as [o|] eqn:Ho;
    [|vm_compute in Ho; discriminate].
  exists o. split; [reflexivity|].
  assert (Dispatch.observed (Dispatch.events o) !! 2%nat = Some "delivered") as Hseen.
  { pose proof Ho as Ho'. vm_compute in Ho'. injection Ho' as <-. reflexivity. }
  assert (Dispatch.isTerminal "delivered" = true) as Hterminal.
  { vm_compute. reflexivity. }
  split; [exact Hseen|]. split; [exact Hterminal|].
  exact (wait_stops_at_first_terminal 0 20 2 Samples.scenarioB o Ho
           2%nat "delivered" Hseen Hterminal).
Defined.

(** X7 at a local path. *)
Lemma media_file_url_of_local_path :
  Js.startsWith "/tmp/cat.png" "file://" = false
  ∧ Media.loadWebMedia Samples.atCap "file:///tmp/cat.png"
    = Media.loadWebMedia Samples.atCap "/tmp/cat.png".
Proof.
  split; [reflexivity|].
  exact (proj1 (media_file_scheme_is_local_path Samples.atCap "/tmp/cat.png"
                  eq_refl)).
Defined.

(** X10 at one event from a known chat. *)
Lemma inbox_sample_dispatch_is_well_formed :
  ∃ m, m ∈ Inbox.dispatched
             (Inbox.monitorWebInbox Samples.quietSocket
                [Samples.notify [Samples.event (Some "wamid.A") "hello"]]).2
       ∧ Inbox.inFrom m ≠ "" ∧ Inbox.inBody m ≠ "" ∧ Inbox.chatJid m ≠ ""
       ∧ Js.endsWith (Inbox.chatJid m) "@status" = false
       ∧ Js.endsWith (Inbox.chatJid m) "@broadcast" = false.
Proof.
  destruct (Inbox.dispatched
              (Inbox.monitorWebInbox Samples.quietSocket
                 [Samples.notify [Samples.event (Some "wamid.A") "hello"]]).2)
    as [|m rest] eqn:Hd; [vm_compute in Hd; discriminate|].
  exists m. split; [apply list_elem_of_here|].
  apply (inbox_dispatches_only_well_formed Samples.quietSocket
           [Samples.notify [Samples.event (Some "wamid.A") "hello"]] m).
  rewrite Hd. apply list_elem_of_here.
Defined.



(** X19 at a fixed reply text. *)
Lemma template_fixed_text_is_unchanged :
  Template.noOpening "Thanks, we got your message." = true
  ∧ Template.applyTemplate "Thanks, we got your message." MoreSamples.context
    = "Thanks, we got your message.".
Proof.
  split; [reflexivity|].
  exact (template_without_placeholder_is_unchanged
           "Thanks, we got your message." MoreSamples.context eq_refl).
Defined.

(** X20 at a greeting that names the sender. *)
Lemma template_greeting_names_sender :
  Template.noBrace "Hi " = true
  ∧ Template.allSpace " " = true
  ∧ Template.allWord "From" = true
  ∧ Template.applyTemplate "Hi {{ From }}!" MoreSamples.context
    = "Hi whatsapp:+15551234567!".
Proof.
  split; [reflexivity|]. split; [reflexivity|]. split; [reflexivity|].
  exact (template_substitutes_placeholder "Hi " " " "From" " " "!"
           MoreSamples.context eq_refl eq_refl eq_refl eq_refl
           ltac:(discriminate)).
Defined.

(** X24 at a linked disk whose session relay throws: left to choose, the
    command starts the session relay and then goes on to the poll
    relay. *)
Lemma relay_auto_falls_back_on_linked_disk :
  0 < 5 ∧ 0 <= 5
  ∧ Cli.startsWeb (Cli.relayAction MoreSamples.unreachable "auto" (Some 5) (Some 5)).2
    = true
  ∧ Cli.EnsureTwilioEnv
    ∈ (Cli.relayAction MoreSamples.unreachable "auto" (Some 5) (Some 5)).2.
Proof.
  split; [lia|]. split; [lia|].
  apply (proj1 (relay_falls_back_only_when_auto MoreSamples.unreachable "auto"
                  5 5 ltac:(lia) ltac:(lia))).
  split; [reflexivity|]. split; [|by eexists].
  unfold Selector.webAuthExists, Fs.access. apply bool_decide_eq_true_2.
  change (Fs.WA_WEB_AUTH_DIR Samples.home
          ∈ ({[ Fs.WA_WEB_AUTH_DIR Samples.home ]} : gset Fs.Path)).
  by apply elem_of_singleton_2.
Defined.

(** X28 at a command that prints three spaces. *)
Lemma webhook_blank_command_sends_nothing :
  Config.mode MoreSamples.blankCommand = "command"
  ∧ (∀ file args out,
       MoreSamples.printsBlank file args = Err.Ok out → Js.trim out = "")
  ∧ List.filter Webhook.isCreate
      (Webhook.handle false None (fun _ => None) (Some MoreSamples.blankCommand)
         MoreSamples.printsBlank (Err.Ok tt) MoreSamples.form) = [].
Proof.
  assert (∀ file args out,
            MoreSamples.printsBlank file args = Err.Ok out → Js.trim out = "")
    as Hblank.
  { intros file args out [= <-]. reflexivity. }
  split; [reflexivity|]. split; [exact Hblank|].
  exact (proj1 (webhook_silent_when_command_gives_nothing false (fun _ => None)
                  MoreSamples.blankCommand MoreSamples.printsBlank (Err.Ok tt)
                  MoreSamples.form eq_refl Hblank)).
Defined.
